(** * The chat hub: room membership and message routing

    A shallow embedding of the Go package [websockets] (the hub, the
    client's queue and the admission handler) and of the properties of
    its room bookkeeping.

    Go values are modelled as follows.
    - A [*Client] is a [Client] record: an address (pointer identity)
      together with the two fields that never change, [room] and
      [username].  The [send] channel a client owns is mutable and lives
      in a store of channels indexed by client.
    - [map[*Client]bool] used as a set is a [gset Client];
      [map[string]map[*Client]bool] is a [gmap string (gset Client)].
    - A buffered channel is its pending elements, its capacity and its
      closed flag.  A send to a closed channel and a close of a closed
      or nil channel panic: operations return [option State], [None]
      being the panic.
    - [for ... range] over a map visits the keys in an order chosen by
      the runtime, and [json.Marshal] is the library's: both are fields
      of a [Runtime], the order being asked anew at every [range]
      statement. *)

From Stdlib Require Import ZArith Ascii.
From stdpp Require Import gmap strings list fin_maps.

Open Scope string_scope.
Open Scope list_scope.

#[local] Set Warnings "-clear-no-such-hyp".

(** ** Timing constants of the client ([websockets/client.go]) *)

Module Timing.
Open Scope Z_scope.

(** [time.Duration] counts nanoseconds. *)
Definition Nanosecond : Z := 1.
Definition Microsecond : Z := 1000 * Nanosecond.
Definition Millisecond : Z := 1000 * Microsecond.
Definition Second : Z := 1000 * Millisecond.

Definition writeWait : Z := 10 * Second.
Definition pongWait : Z := 60 * Second.
(** Go's [/] on integers truncates toward zero. *)
Definition pingPeriod : Z := Z.quot (pongWait * 9) 10.
Definition maxMessageSize : Z := 512.
End Timing.

(** ** Data *)

Record Message := {
  Type_ : string;
  Content : string;
  RoomName : string;
  Username : string
}.

Record Client := {
  addr : nat;
  room : string;
  username : string
}.

#[global] Instance Message_eq_dec : EqDecision Message.
Proof. solve_decision. Defined.

#[global] Instance Client_eq_dec : EqDecision Client.
Proof. solve_decision. Defined.

#[global] Instance Client_countable : Countable Client.
Proof.
  refine (inj_countable'
            (fun c => (addr c, room c, username c))
            (fun t => {| addr := t.1.1; room := t.1.2; username := t.2 |}) _).
  by intros [].
Defined.

(** A channel of byte strings. *)
Record Chan := {
  buf : list string;
  cap : nat;
  closed : bool
}.

#[global] Instance Chan_eq_dec : EqDecision Chan.
Proof. solve_decision. Defined.

(** [make(chan []byte, n)] *)
Definition make_chan (n : nat) : Chan :=
  {| buf := []; cap := n; closed := false |}.

(** The buffer size [HandleWebSocket] gives to [send]. *)
Definition sendBufferSize : nat := 256.

(** The hub's two maps, the store of the clients' [send] channels, and
    three observation fields: the messages [handleBroadcast] was called
    with ([routed]), the lines written by [log.Printf] ([logged]) and
    the number of [range] statements executed so far ([ranges]). *)
Record State := {
  clients : gset Client;
  rooms : gmap string (gset Client);
  chans : gmap Client Chan;
  routed : list Message;
  logged : list string;
  ranges : nat
}.

(** [NewHub()], with no client allocated yet. *)
Definition NewHub : State :=
  {| clients := ∅; rooms := ∅; chans := ∅;
     routed := []; logged := []; ranges := 0 |}.

(** ** Channel operations *)

Definition chan_push (ch : Chan) (m : string) : Chan :=
  {| buf := buf ch ++ [m]; cap := cap ch; closed := closed ch |}.

Definition chan_close (ch : Chan) : Chan :=
  {| buf := buf ch; cap := cap ch; closed := true |}.

Definition chan_pop (ch : Chan) : Chan :=
  {| buf := tail (buf ch); cap := cap ch; closed := closed ch |}.

(** No room left in the buffer; a nil channel never accepts a send. *)
Definition chan_full (och : option Chan) : bool :=
  match och with
  | None => true
  | Some ch => negb (length (buf ch) <? cap ch)%nat
  end.

Inductive SendResult :=
| SendOk (ch : Chan)
| SendDefault
| SendPanic.

(** [select { case ch <- m: ...  default: ... }] *)
Definition try_send (och : option Chan) (m : string) : SendResult :=
  match och with
  | None => SendDefault
  | Some ch =>
      if closed ch then SendPanic
      else if chan_full (Some ch) then SendDefault
      else SendOk (chan_push ch m)
  end.

(** [close(ch)] *)
Definition close_chan (och : option Chan) : option Chan :=
  match och with
  | None => None
  | Some ch => if closed ch then None else Some (chan_close ch)
  end.

(** [strings.Join(elems, sep)] *)
Fixpoint Join (elems : list string) (sep : string) : string :=
  match elems with
  | [] => ""
  | x :: rest =>
      match rest with
      | [] => x
      | _ :: _ => x +:+ sep +:+ Join rest sep
      end
  end.

(** [delete(rooms[r], c)]: the inner map is shared with the entry, and
    deleting from the nil map of a missing entry does nothing. *)
Definition room_delete (r : string) (c : Client)
    (rs : gmap string (gset Client)) : gmap string (gset Client) :=
  match rs !! r with
  | Some s => <[r := s ∖ {[c]}]> rs
  | None => rs
  end.

(** State updates. *)
Definition set_chan (c : Client) (ch : Chan) (st : State) : State :=
  {| clients := clients st; rooms := rooms st;
     chans := <[c := ch]> (chans st);
     routed := routed st; logged := logged st; ranges := ranges st |}.

Definition set_members (cs : gset Client) (rs : gmap string (gset Client))
    (st : State) : State :=
  {| clients := cs; rooms := rs; chans := chans st;
     routed := routed st; logged := logged st; ranges := ranges st |}.

Definition note_routed (m : Message) (st : State) : State :=
  {| clients := clients st; rooms := rooms st; chans := chans st;
     routed := routed st ++ [m]; logged := logged st; ranges := ranges st |}.

Definition note_logged (line : string) (st : State) : State :=
  {| clients := clients st; rooms := rooms st; chans := chans st;
     routed := routed st; logged := logged st ++ [line]; ranges := ranges st |}.

Definition note_range (st : State) : State :=
  {| clients := clients st; rooms := rooms st; chans := chans st;
     routed := routed st; logged := logged st; ranges := S (ranges st) |}.

(** The loop [for client := range l { body }] with a body that may
    panic. *)
Fixpoint for_each (body : State -> Client -> option State)
    (st : State) (l : list Client) : option State :=
  match l with
  | [] => Some st
  | c :: l' =>
      match body st c with
      | Some st' => for_each body st' l'
      | None => None
      end
  end.

(** ** The hub ([websockets/hub.go]) *)

(** What the hub takes from the Go runtime and library: [json.Marshal]
    (the bytes, or an error) and the order in which the [n]-th [range]
    statement executed visits a set. *)
Class Runtime := {
  json_Marshal : Message -> string + string;
  range_order : nat -> gset Client -> list Client
}.

(** A [range] statement visits every key once. *)
Definition range_visits_all (rt : Runtime) : Prop :=
  ∀ n s, range_order n s ≡ₚ elements s.

Section Hub.
Context {rt : Runtime}.

(** The body of the loop of [handleBroadcast]. *)
Definition deliver (roomName : string) (jsonMsg : string)
    (st : State) (client : Client) : option State :=
  match try_send (chans st !! client) jsonMsg with
  | SendOk ch => Some (set_chan client ch st)
  | SendDefault =>
      match close_chan (chans st !! client) with
      | Some ch =>
          Some (set_members (clients st ∖ {[client]})
                  (room_delete roomName client (rooms st))
                  (set_chan client ch st))
      | None => None
      end
  | SendPanic => None
  end.

Definition handleBroadcast (st : State) (msg : Message) : option State :=
  let st := note_routed msg st in
  match json_Marshal msg with
  | inr err =>
      Some (note_logged ("Error marshaling message: " +:+ err) st)
  | inl jsonMsg =>
      match rooms st !! RoomName msg with
      | Some roomClients =>
          for_each (deliver (RoomName msg) jsonMsg) (note_range st)
            (range_order (ranges st) roomClients)
      | None => Some st
      end
  end.

Definition roster (room : string) (users : list string) : Message :=
  {| Type_ := "online_users"; Content := Join users ",";
     RoomName := room; Username := "" |}.

Definition broadcastRoomUsers (st : State) (room : string) : option State :=
  match rooms st !! room with
  | Some roomClients =>
      handleBroadcast (note_range st)
        (roster room (username <$> range_order (ranges st) roomClients))
  | None => handleBroadcast st (roster room [])
  end.

Definition handleRegister (st : State) (client : Client) : option State :=
  let rooms1 :=
    match rooms st !! room client with
    | Some _ => rooms st
    | None => <[room client := ∅]> (rooms st)
    end in
  let rooms2 :=
    <[room client := {[client]} ∪ rooms1 !!! room client]> rooms1 in
  broadcastRoomUsers
    (set_members ({[client]} ∪ clients st) rooms2 st) (room client).

Definition leftMessage (client : Client) : Message :=
  {| Type_ := "user_left";
     Content := username client +:+ " left the room";
     RoomName := room client; Username := username client |}.

Definition handleUnregister (st : State) (client : Client) : option State :=
  if decide (client ∈ clients st) then
    let st1 :=
      set_members (clients st ∖ {[client]})
        (room_delete (room client) client (rooms st)) st in
    match handleBroadcast st1 (leftMessage client) with
    | Some st2 =>
        match broadcastRoomUsers st2 (room client) with
        | Some st3 =>
            if decide (size (rooms st3 !!! room client) = 0)
            then Some (set_members (clients st3)
                         (delete (room client) (rooms st3)) st3)
            else Some st3
        | None => None
        end
    | None => None
    end
  else Some st.

(** ** Admission and the client's side ([websocket.go], [client.go]) *)

(** [&Client{..., send: make(chan []byte, 256), ...}] *)
Definition new_client (client : Client) (st : State) : State :=
  set_chan client (make_chan sendBufferSize) st.

Definition joinMessage (client : Client) : Message :=
  {| Type_ := "user_joined";
     Content := username client +:+ " joined the room";
     RoomName := room client; Username := username client |}.

(** The message [readPump] forwards for a frame it has read. *)
Definition chatMessage (client : Client) (frame : string) : Message :=
  {| Type_ := "chat"; Content := frame;
     RoomName := room client; Username := username client |}.

(** What [HandleWebSocket] makes the hub do for an upgraded connection
    at a fresh address: register the new client, then route its join
    message.  A request without room or username is answered 400 and
    reaches the hub with nothing.  (Events of other connections may
    reach the hub between the two; [reachable] below has them as
    separate steps.) *)
Definition HandleWebSocket (st : State) (a : nat) (room username : string)
    : option State :=
  if bool_decide (room = "") || bool_decide (username = "") then Some st
  else
    let client := {| addr := a; room := room; username := username |} in
    match handleRegister (new_client client st) client with
    | Some st1 => handleBroadcast st1 (joinMessage client)
    | None => None
    end.

(** [writePump] takes the next pending message of its client. *)
Definition receive (st : State) (client : Client) : State :=
  match chans st !! client with
  | Some ch => set_chan client (chan_pop ch) st
  | None => st
  end.

(** ** Runs of the server *)

(** The loop of [Run] takes one event at a time from its three
    channels; in between the writers take messages from their queues.
    A state reached with a writer taking a message while the hub is
    inside a handler is also reached with that receive moved before or
    after the handler, so handlers are steps of their own.  A client is allocated once, by
    the handler that admits it: [Register] of a client that already has
    a channel is not an event of the server and has no successor.  The
    messages on [h.broadcast] are left arbitrary, which covers the join
    messages of the admission handler and the frames of [readPump]. *)
Inductive Event :=
| Register (client : Client)
| Unregister (client : Client)
| Broadcast (msg : Message)
| Receive (client : Client).

Definition step (st : State) (e : Event) : option State :=
  match e with
  | Register client =>
      match chans st !! client with
      | None => handleRegister (new_client client st) client
      | Some _ => None
      end
  | Unregister client => handleUnregister st client
  | Broadcast msg => handleBroadcast st msg
  | Receive client => Some (receive st client)
  end.

Fixpoint run (st : State) (es : list Event) : option State :=
  match es with
  | [] => Some st
  | e :: es' =>
      match step st e with
      | Some st' => run st' es'
      | None => None
      end
  end.

Inductive reachable : State -> Prop :=
| reach_init : reachable NewHub
| reach_step st e st' : reachable st -> step st e = Some st' -> reachable st'.

End Hub.

(** ** Invariants and the vocabulary of the statements *)

(** Every member of a room set has an open [send] channel. *)
Definition members_open (st : State) : Prop :=
  ∀ r c, c ∈ rooms st !!! r ->
    ∃ ch, chans st !! c = Some ch ∧ closed ch = false.

(** A client is in the global set exactly when it is in the set of its
    own room, and it is in no other room set. *)
Definition one_room (st : State) : Prop :=
  (∀ c, c ∈ clients st -> c ∈ rooms st !!! room c) ∧
  (∀ r c, c ∈ rooms st !!! r -> r = room c ∧ c ∈ clients st).

Definition hub_inv (st : State) : Prop :=
  one_room st ∧ members_open st.

(** Invariant (b) of the design: no room entry with an empty set. *)
Definition rooms_nonempty (st : State) : Prop :=
  ∀ r s, rooms st !! r = Some s -> s ≠ ∅.

(** What one pass of the routing loop does to the channel of a client
    it visits: a full queue is closed, any other gets the bytes. *)
Definition chan_after (jsonMsg : string) (ch : Chan) : Chan :=
  if chan_full (Some ch) then chan_close ch else chan_push ch jsonMsg.

(** The effect of routing [jsonMsg] in room [roomName] to the clients
    in [dest]: their channels change as [chan_after] says, those with a
    full queue leave the global set and the set of [roomName], and
    nothing else changes. *)
Definition delivery (roomName jsonMsg : string) (dest : Client -> Prop)
    (st st' : State) : Prop :=
  (∀ c, dest c -> chans st' !! c = chan_after jsonMsg <$> chans st !! c) ∧
  (∀ c, ¬ dest c -> chans st' !! c = chans st !! c) ∧
  (∀ c, c ∈ clients st' ↔
        c ∈ clients st ∧ ¬ (dest c ∧ chan_full (chans st !! c))) ∧
  (∀ r c, c ∈ rooms st' !!! r ↔
        c ∈ rooms st !!! r ∧
        ¬ (r = roomName ∧ dest c ∧ chan_full (chans st !! c))) ∧
  (∀ r, is_Some (rooms st' !! r) ↔ is_Some (rooms st !! r)).

(** What every call of [handleBroadcast] for room [roomName]
    guarantees, whether the encoding succeeds or not: members are only
    removed, and only those with a full queue; room entries neither
    appear nor disappear; only channels of members of [roomName] are
    touched. *)
Definition shrinks (roomName : string) (st st' : State) : Prop :=
  clients st' ⊆ clients st ∧
  (∀ r, rooms st' !!! r ⊆ rooms st !!! r) ∧
  (∀ r, is_Some (rooms st' !! r) ↔ is_Some (rooms st !! r)) ∧
  (∀ c, c ∉ rooms st !!! roomName -> chans st' !! c = chans st !! c) ∧
  (∀ c, c ∈ clients st -> ¬ chan_full (chans st !! c) -> c ∈ clients st') ∧
  (∀ r c, c ∈ rooms st !!! r -> ¬ chan_full (chans st !! c) ->
          c ∈ rooms st' !!! r) ∧
  (∀ r, r ≠ roomName -> rooms st' !! r = rooms st !! r).

(** ** A concrete runtime and concrete runs *)

(** The double quote character. *)
Definition dq : string := String (Ascii.ascii_of_nat 34) "".

Definition json_field (name value : string) : string :=
  dq +:+ name +:+ dq +:+ ":" +:+ dq +:+ value +:+ dq.

(** An encoder that writes the four fields in the order and under the
    names of the struct tags, without escaping.  It stands for
    [json.Marshal] in the concrete runs below. *)
Definition plain_bytes (m : Message) : string :=
  "{" +:+ json_field "type" (Type_ m) +:+ "," +:+
  json_field "content" (Content m) +:+ "," +:+
  json_field "room" (RoomName m) +:+ "," +:+
  json_field "username" (Username m) +:+ "}".

Definition plain_json (m : Message) : string + string :=
  inl (plain_bytes m).

(** A runtime that visits sets in the order of [elements]. *)
Definition plain_runtime : Runtime :=
  {| json_Marshal := plain_json; range_order := fun _ s => elements s |}.

(** A runtime that alternates between that order and its reverse. *)
Definition zigzag_runtime : Runtime :=
  {| json_Marshal := plain_json;
     range_order := fun n s =>
       if Nat.even n then elements s else reverse (elements s) |}.

(** A runtime whose encoder rejects every message. *)
Definition failing_runtime : Runtime :=
  {| json_Marshal := fun _ => inr "unsupported value";
     range_order := fun _ s => elements s |}.

Definition alice : Client :=
  {| addr := 1; room := "lobby"; username := "alice" |}.
Definition bob : Client :=
  {| addr := 2; room := "lobby"; username := "bob" |}.
Definition carol : Client :=
  {| addr := 3; room := "den"; username := "carol" |}.
Definition dave : Client :=
  {| addr := 4; room := "den"; username := "dave" |}.

(** The events one admission sends to the hub. *)
Definition admission (client : Client) : list Event :=
  [Register client; Broadcast (joinMessage client)].

(** [n] frames read from a client's peer. *)
Definition frames (client : Client) (n : nat) : list Event :=
  replicate n (Broadcast (chatMessage client "hi")).

(** Alice and Bob in the lobby, Carol in the den. *)
Definition three_clients : list Event :=
  admission alice ++ admission bob ++ admission carol.

(** Alice alone in the lobby, her peer sending but not reading: after
    the roster, her join message and 254 frames her queue is full. *)
Definition alice_saturated : list Event :=
  admission alice ++ frames alice 254.

(** The same with Bob and Carol admitted as well; Bob's writer keeps up
    with the four messages he has got before the frames arrive. *)
Definition lobby_saturated : list Event :=
  three_clients ++ [Receive bob; Receive bob] ++ frames alice 252.

Definition state_after (rt : Runtime) (es : list Event) : State :=
  default NewHub (run (rt := rt) NewHub es).

(** The state a run reaches from [st] (or [st] if the run panics), and
    the channel a client has in a state. *)
Definition run_from (rt : Runtime) (st : State) (es : list Event) : State :=
  default st (run (rt := rt) st es).

Definition chan_of (st : State) (c : Client) : Chan :=
  default (make_chan 0) (chans st !! c).

(** The lobby after Alice's eviction. *)
Definition alice_evicted : list Event :=
  lobby_saturated ++ frames bob 1.

(** ** The pumps of a client ([websockets/client.go]) *)

(** Close codes of gorilla/websocket named by [readPump]. *)
Definition CloseGoingAway : Z := 1001.
Definition CloseAbnormalClosure : Z := 1006.

(** What [ReadMessage] fails with: a close error with its code, or any
    other error (deadline passed, read limit exceeded, connection
    closed by the writer, ...).  Both carry the text [%v] prints. *)
Inductive ReadError :=
| CloseError (code : Z) (text : string)
| OtherError (text : string).

Definition error_text (err : ReadError) : string :=
  match err with
  | CloseError _ text => text
  | OtherError text => text
  end.

(** [websocket.IsUnexpectedCloseError(err, expectedCodes...)]: a close
    error whose code is not among the expected ones. *)
Definition IsUnexpectedCloseError (err : ReadError) (expectedCodes : list Z)
    : bool :=
  match err with
  | CloseError code _ => negb (bool_decide (code ∈ expectedCodes))
  | OtherError _ => false
  end.

(** The three kinds of frame [writePump] writes. *)
Inductive Frame :=
| TextMessage (payload : string)
| PingMessage
| CloseMessage.

(** What a pump does that others can see, in the order it does it: an
    event sent to the hub, a line logged, a frame handed to the
    connection, the connection closed. *)
Inductive PumpAction :=
| ToHub (e : Event)
| LogLine (line : string)
| ConnWrite (f : Frame)
| ConnClose.

(** [readPump], as a function of the results of its successive calls of
    [ReadMessage] (the read limit, the deadline and the pong handler it
    sets decide what these results are).  A list that ends without an
    error is a pump still waiting in [ReadMessage].  The deferred
    function runs when the loop is left: unregister, then close. *)
Fixpoint readPump (c : Client) (reads : list (string + ReadError))
    : list PumpAction :=
  match reads with
  | [] => []
  | inl message :: reads' =>
      ToHub (Broadcast (chatMessage c message)) :: readPump c reads'
  | inr err :: _ =>
      (if IsUnexpectedCloseError err [CloseGoingAway; CloseAbnormalClosure]
       then [LogLine ("error: " +:+ error_text err)]
       else []) ++
      [ToHub (Unregister c); ConnClose]
  end.

(** What wakes the [select] of [writePump], with the result of the call
    that can make the loop return: the queue (with the result of
    [NextWriter]) or the ticker (with the result of writing the
    ping). *)
Inductive Wake :=
| SendReady (nextWriter_ok : bool)
| TickerFired (ping_ok : bool).

(** One turn of the loop of [writePump]: the new state, what the pump
    did, and whether the loop goes on.  The case of the queue is ready
    when a message is pending or the channel is closed; a wake for a
    queue that is not ready is a turn without effect.  Errors of
    [w.Write], [w.Close] and of writing the close frame are not looked
    at by the code: a frame counts as written when it is handed to the
    connection. *)
Definition writePump_turn (st : State) (c : Client) (k : Wake)
    : State * list PumpAction * bool :=
  match k with
  | SendReady nextWriter_ok =>
      match chans st !! c with
      | None => (st, [], true)
      | Some ch =>
          match buf ch with
          | message :: _ =>
              if nextWriter_ok
              then (receive st c, [ConnWrite (TextMessage message)], true)
              else (receive st c, [], false)
          | [] =>
              if closed ch then (st, [ConnWrite CloseMessage], false)
              else (st, [], true)
          end
      end
  | TickerFired ping_ok =>
      if ping_ok then (st, [ConnWrite PingMessage], true)
      else (st, [], false)
  end.

(** [writePump] over the wakes of its [select]; the deferred function
    closes the connection when the loop returns. *)
Fixpoint writePump (st : State) (c : Client) (script : list Wake)
    : State * list PumpAction :=
  match script with
  | [] => (st, [])
  | k :: script' =>
      match writePump_turn st c k with
      | (st1, acts, true) =>
          let '(st2, acts') := writePump st1 c script' in
          (st2, acts ++ acts')
      | (st1, acts, false) => (st1, acts ++ [ConnClose])
      end
  end.

(** ** More vocabulary *)

(** The hub events among the actions of a pump. *)
Definition hub_events (acts : list PumpAction) : list Event :=
  omap (λ a, match a with ToHub e => Some e | _ => None end) acts.

(** The payloads of the text frames among the actions of a pump. *)
Definition payloads (acts : list PumpAction) : list string :=
  omap (λ a, match a with
             | ConnWrite (TextMessage m) => Some m
             | _ => None
             end) acts.

(** The pending messages of a client. *)
Definition queue (st : State) (c : Client) : list string :=
  match chans st !! c with
  | Some ch => buf ch
  | None => []
  end.

(** A channel as [HandleWebSocket] makes them, within its capacity. *)
Definition chan_bounded (ch : Chan) : Prop :=
  cap ch = sendBufferSize ∧ (length (buf ch) ≤ cap ch)%nat.

Definition chans_bounded (st : State) : Prop :=
  ∀ c ch, chans st !! c = Some ch -> chan_bounded ch.

(** From [ch] to [ch']: messages were appended at the tail or the
    channel was closed; a closed channel is left as it is. *)
Definition grows (ch ch' : Chan) : Prop :=
  cap ch' = cap ch ∧
  (∃ added, buf ch' = buf ch ++ added) ∧
  (closed ch = true -> ch' = ch).

Definition chans_grow (st st' : State) : Prop :=
  ∀ c ch, chans st !! c = Some ch ->
    ∃ ch', chans st' !! c = Some ch' ∧ grows ch ch'.

(** The effect of one call of [handleBroadcast] on the channels: each
    is left alone or is an open channel offered one message. *)
Definition offered_once (st st' : State) : Prop :=
  ∀ c, chans st' !! c = chans st !! c ∨
       ∃ ch j, chans st !! c = Some ch ∧ closed ch = false ∧
               chans st' !! c = Some (chan_after j ch).

(** The state after the first three statements of [handleRegister] and
    the one after the two [delete] statements of [handleUnregister]. *)
Definition joined (st : State) (client : Client) : State :=
  let rooms1 :=
    match rooms st !! room client with
    | Some _ => rooms st
    | None => <[room client := ∅]> (rooms st)
    end in
  set_members ({[client]} ∪ clients st)
    (<[room client := {[client]} ∪ rooms1 !!! room client]> rooms1) st.

Definition removed (st : State) (client : Client) : State :=
  set_members (clients st ∖ {[client]})
    (room_delete (room client) client (rooms st)) st.

(** A username a roster can carry without ambiguity: not empty (the
    admission handler sees to that) and without a comma (nothing in
    the code does). *)
Fixpoint comma_free (s : string) : bool :=
  match s with
  | EmptyString => true
  | String a s' => negb (Ascii.eqb a ","%char) && comma_free s'
  end.

Definition plain_username (u : string) : Prop :=
  u ≠ "" ∧ comma_free u = true.

(** An event of the hub's own three channels (not a writer's
    receive). *)
Definition hub_event (e : Event) : Prop :=
  match e with
  | Receive _ => False
  | _ => True
  end.

(** * Properties *)

Section Properties.
Context {rt : Runtime}.
Hypothesis range_perm : range_visits_all rt.

(** ** Room maps *)

Lemma lookup_total_None (rs : gmap string (gset Client)) r :
  rs !! r = None -> rs !!! r = ∅.
Proof. intros E. by rewrite lookup_total_alt, E. Qed.

Lemma lookup_eq_total (rs rs' : gmap string (gset Client)) r :
  (is_Some (rs' !! r) ↔ is_Some (rs !! r)) ->
  rs' !!! r = rs !!! r -> rs' !! r = rs !! r.
Proof.
  intros Hs. destruct (rs' !! r) as [s'|] eqn:E', (rs !! r) as [s|] eqn:E.
  - rewrite (lookup_total_correct _ _ _ E'), (lookup_total_correct _ _ _ E).
    by intros ->.
  - destruct Hs as [Hs _]. by destruct Hs.
  - destruct Hs as [_ Hs]. by destruct Hs.
  - done.
Qed.

Lemma room_delete_other rs roomName c r :
  r ≠ roomName -> room_delete roomName c rs !! r = rs !! r.
Proof.
  intros Hne. unfold room_delete.
  destruct (rs !! roomName); [|done]. by rewrite lookup_insert_ne.
Qed.

Lemma elem_of_room_delete rs roomName c r c' :
  c' ∈ room_delete roomName c rs !!! r ↔
  c' ∈ rs !!! r ∧ ¬ (r = roomName ∧ c' = c).
Proof.
  unfold room_delete. destruct (rs !! roomName) as [s|] eqn:E.
  - destruct (decide (r = roomName)) as [->|Hne].
    + rewrite lookup_total_insert_eq, (lookup_total_correct _ _ _ E).
      set_solver.
    + rewrite lookup_total_insert_ne by done. naive_solver.
  - split; [|naive_solver]. intros Hin. split; [done|].
    intros [-> _]. rewrite (lookup_total_None _ _ E) in Hin. set_solver.
Qed.

Lemma room_delete_is_Some rs roomName c r :
  is_Some (room_delete roomName c rs !! r) ↔ is_Some (rs !! r).
Proof.
  unfold room_delete. destruct (rs !! roomName) as [s|] eqn:E; [|done].
  destruct (decide (r = roomName)) as [->|Hne].
  - rewrite lookup_insert_eq, E. split; eauto.
  - by rewrite lookup_insert_ne.
Qed.

(** ** One pass of the routing loop *)

Lemma chan_after_open j ch :
  closed ch = false -> chan_full (Some ch) = false ->
  closed (chan_after j ch) = false.
Proof. unfold chan_after. intros Hc ->. done. Qed.

Lemma deliver_delivery roomName j st c ch :
  chans st !! c = Some ch -> closed ch = false ->
  ∃ st', deliver roomName j st c = Some st' ∧
         delivery roomName j (λ c', c' = c) st st' ∧
         routed st' = routed st ∧ logged st' = logged st ∧
         ranges st' = ranges st.
Proof.
  intros Hch Hopen. unfold deliver, try_send, close_chan.
  rewrite Hch, Hopen.
  destruct (chan_full (Some ch)) eqn:Hfull.
  - eexists. split; [done|]. split; [|done].
    unfold delivery; simpl.
    split; [|split; [|split; [|split]]].
    + intros c' ->. rewrite lookup_insert_eq, Hch. simpl.
      unfold chan_after. by rewrite Hfull.
    + intros c' Hne. by rewrite lookup_insert_ne.
    + intros c'. rewrite elem_of_difference, elem_of_singleton.
      split; [naive_solver|]. intros [Hin Hn]. split; [done|].
      intros ->. apply Hn. by rewrite Hch, Hfull.
    + intros r c'. rewrite elem_of_room_delete.
      split; [naive_solver|]. intros [Hin Hn]. split; [done|].
      intros [-> ->]. apply Hn. by rewrite Hch, Hfull.
    + intros r. apply room_delete_is_Some.
  - eexists. split; [done|]. split; [|done].
    unfold delivery; simpl.
    split; [|split; [|split; [|split]]].
    + intros c' ->. rewrite lookup_insert_eq, Hch. simpl.
      unfold chan_after. by rewrite Hfull.
    + intros c' Hne. by rewrite lookup_insert_ne.
    + intros c'. split; [|tauto]. intros Hin. split; [done|].
      intros [-> Hf]. by rewrite Hch, Hfull in Hf.
    + intros r c'. split; [|tauto]. intros Hin. split; [done|].
      intros (_ & -> & Hf). by rewrite Hch, Hfull in Hf.
    + done.
Qed.

Lemma delivery_ext roomName j (P Q : Client -> Prop) st st' :
  (∀ c, P c ↔ Q c) ->
  delivery roomName j P st st' -> delivery roomName j Q st st'.
Proof.
  intros HPQ (H1 & H2 & H3 & H4 & H5).
  split; [|split; [|split; [|split]]].
  - intros c Hc. apply H1, HPQ, Hc.
  - intros c Hc. apply H2. by rewrite HPQ.
  - intros c. rewrite H3, HPQ. done.
  - intros r c. rewrite H4, HPQ. done.
  - done.
Qed.

Lemma delivery_none roomName j st :
  delivery roomName j (λ _, False) st st.
Proof.
  split; [|split; [|split; [|split]]]; try done; intros; tauto.
Qed.

Lemma delivery_compose roomName j (P Q : Client -> Prop) st st1 st2 :
  (∀ c, P c -> ¬ Q c) ->
  delivery roomName j P st st1 ->
  delivery roomName j Q st1 st2 ->
  delivery roomName j (λ c, P c ∨ Q c) st st2.
Proof.
  intros Hdisj (P1 & P2 & P3 & P4 & P5) (Q1 & Q2 & Q3 & Q4 & Q5).
  assert (Hsame : ∀ c, Q c -> chans st1 !! c = chans st !! c).
  { intros c Hq. apply P2. intros Hp. by apply (Hdisj c). }
  split; [|split; [|split; [|split]]].
  - intros c [Hp|Hq].
    + rewrite Q2 by (by apply Hdisj). by apply P1.
    + rewrite Q1 by done. by rewrite Hsame.
  - intros c Hn. rewrite Q2 by tauto. apply P2. tauto.
  - intros c. rewrite Q3, P3. split.
    + intros [[Hin Hp] Hq]. split; [done|].
      intros [[Hc|Hc] Hf]; [tauto|].
      apply Hq. split; [done|]. by rewrite Hsame.
    + intros [Hin Hn]. split; [split; [done|tauto]|].
      intros [Hq Hf]. rewrite Hsame in Hf by done. tauto.
  - intros r c. rewrite Q4, P4. split.
    + intros [[Hin Hp] Hq]. split; [done|].
      intros (-> & [Hc|Hc] & Hf); [tauto|].
      apply Hq. split; [done|]. split; [done|]. by rewrite Hsame.
    + intros [Hin Hn]. split; [split; [done|tauto]|].
      intros (-> & Hq & Hf). rewrite Hsame in Hf by done. tauto.
  - intros r. by rewrite Q5, P5.
Qed.

(** The loop of [handleBroadcast] over distinct clients with open
    channels runs to its end and has the effect [delivery]. *)
Lemma for_each_deliver roomName j l : ∀ st,
  NoDup l ->
  (∀ c, c ∈ l -> ∃ ch, chans st !! c = Some ch ∧ closed ch = false) ->
  ∃ st', for_each (deliver roomName j) st l = Some st' ∧
         delivery roomName j (λ c, c ∈ l) st st' ∧
         routed st' = routed st ∧ logged st' = logged st ∧
         ranges st' = ranges st.
Proof.
  induction l as [|c l IH]; intros st Hnd Hopen; simpl.
  - exists st. split; [done|]. split; [|done].
    eapply delivery_ext; [|apply delivery_none].
    intros c. by rewrite elem_of_nil.
  - apply NoDup_cons in Hnd as [Hc Hnd].
    destruct (Hopen c) as (ch & Hch & Hcl); [left|].
    destruct (deliver_delivery roomName j st c ch Hch Hcl)
      as (st1 & -> & Hd1 & Hr1 & Hl1 & Hg1).
    destruct (IH st1 Hnd) as (st2 & Hrun & Hd2 & Hr2 & Hl2 & Hg2).
    { intros c' Hin. destruct Hd1 as (_ & Hother & _).
      rewrite Hother by (intros ->; done). apply Hopen. by right. }
    exists st2. split; [done|]. split; [|by rewrite Hr2, Hl2, Hg2].
    apply (delivery_ext _ _ (λ c', c' = c ∨ c' ∈ l)).
    + intros c'. by rewrite elem_of_cons.
    + apply (delivery_compose _ _ _ _ _ st1); [|done..].
      intros c' ->. done.
Qed.

(** ** [handleBroadcast] *)

Lemma range_order_elem n (s : gset Client) c : c ∈ range_order n s ↔ c ∈ s.
Proof. by rewrite (range_perm n s), elem_of_elements. Qed.

Lemma range_order_NoDup n (s : gset Client) : NoDup (range_order n s).
Proof. rewrite (range_perm n s). apply NoDup_elements. Qed.

(** A message that encodes is offered once to every member of its
    room. *)
Lemma handleBroadcast_delivers st msg j :
  json_Marshal msg = inl j ->
  (∀ c, c ∈ rooms st !!! RoomName msg ->
        ∃ ch, chans st !! c = Some ch ∧ closed ch = false) ->
  ∃ st', handleBroadcast st msg = Some st' ∧
         delivery (RoomName msg) j (λ c, c ∈ rooms st !!! RoomName msg)
           st st' ∧
         routed st' = routed st ++ [msg] ∧ logged st' = logged st.
Proof.
  intros Hj Hopen. unfold handleBroadcast. rewrite Hj. simpl.
  destruct (rooms st !! RoomName msg) as [s|] eqn:E.
  - rewrite (lookup_total_correct _ _ _ E) in Hopen |- *.
    destruct (for_each_deliver (RoomName msg) j (range_order (ranges st) s)
                (note_range (note_routed msg st)))
      as (st' & Hrun & Hd & Hr & Hl & _).
    { apply range_order_NoDup. }
    { intros c Hc. apply Hopen. by apply range_order_elem in Hc. }
    exists st'. split; [done|]. split; [|done].
    eapply delivery_ext; [|exact Hd].
    intros c. apply range_order_elem.
  - eexists. split; [done|]. split; [|done].
    eapply delivery_ext; [|apply (delivery_none _ _ st)].
    intros c. rewrite (lookup_total_None _ _ E). set_solver.
Qed.

(** A message that does not encode changes nothing but the log. *)
Lemma handleBroadcast_encode_error st msg err :
  json_Marshal msg = inr err ->
  handleBroadcast st msg =
    Some (note_logged ("Error marshaling message: " +:+ err)
            (note_routed msg st)).
Proof. intros Hj. unfold handleBroadcast. by rewrite Hj. Qed.

Lemma delivery_shrinks roomName j st st' :
  delivery roomName j (λ c, c ∈ rooms st !!! roomName) st st' ->
  shrinks roomName st st'.
Proof.
  intros (D1 & D2 & D3 & D4 & D5).
  split; [|split; [|split; [|split; [|split; [|split]]]]].
  - intros c. rewrite D3. tauto.
  - intros r c. rewrite D4. tauto.
  - done.
  - intros c Hc. by apply D2.
  - intros c Hc Hf. apply D3. tauto.
  - intros r c Hc Hf. apply D4. tauto.
  - intros r Hne. apply lookup_eq_total; [done|].
    apply set_eq. intros c. rewrite D4. tauto.
Qed.

Lemma delivery_hub_inv roomName j st st' :
  hub_inv st ->
  delivery roomName j (λ c, c ∈ rooms st !!! roomName) st st' ->
  hub_inv st'.
Proof.
  intros [[Hin Hone] Hopen] (D1 & D2 & D3 & D4 & D5).
  split; [split|].
  - intros c. rewrite D3, D4. intros [Hc Hn].
    split; [by apply Hin|]. intros (_ & Hd & Hf). tauto.
  - intros r c. rewrite D3, D4. intros [Hc Hn].
    destruct (Hone r c Hc) as [-> Hcl]. split; [done|].
    split; [done|]. intros [Hd Hf]. apply Hn.
    split; [|done]. by destruct (Hone _ _ Hd).
  - intros r c. rewrite D4. intros [Hc Hn].
    destruct (Hopen r c Hc) as (ch & Hch & Hcl).
    destruct (decide (c ∈ rooms st !!! roomName)) as [Hd|Hd].
    + rewrite (D1 c Hd), Hch. eexists. split; [done|].
      apply chan_after_open; [done|].
      destruct (chan_full (Some ch)) eqn:Hf; [|done].
      exfalso. apply Hn. split; [|split; [done|by rewrite Hch, Hf]].
      destruct (Hone _ _ Hc) as [-> _]. by destruct (Hone _ _ Hd).
    + rewrite (D2 c Hd). eauto.
Qed.

(** The invariant and [shrinks] read the two maps and the channels
    only. *)
Lemma hub_inv_same st st' :
  clients st' = clients st -> rooms st' = rooms st ->
  chans st' = chans st -> hub_inv st -> hub_inv st'.
Proof.
  unfold hub_inv, one_room, members_open. by intros -> -> ->.
Qed.

Lemma shrinks_same roomName st st' :
  clients st' = clients st -> rooms st' = rooms st ->
  chans st' = chans st -> shrinks roomName st st'.
Proof. unfold shrinks. by intros -> -> ->. Qed.

(** In a state that satisfies the invariant [handleBroadcast] does not
    panic, and it keeps the invariant. *)
Lemma handleBroadcast_inv st msg :
  hub_inv st ->
  ∃ st', handleBroadcast st msg = Some st' ∧ hub_inv st' ∧
         shrinks (RoomName msg) st st' ∧
         routed st' = routed st ++ [msg].
Proof.
  intros Hinv. destruct (json_Marshal msg) as [j|err] eqn:Hj.
  - destruct (handleBroadcast_delivers st msg j Hj)
      as (st' & Hrun & Hd & Hr & _).
    { intros c Hc. by apply (proj2 Hinv (RoomName msg)). }
    exists st'. split; [done|].
    split; [by eapply delivery_hub_inv|].
    split; [by eapply delivery_shrinks|done].
  - rewrite (handleBroadcast_encode_error _ _ _ Hj).
    eexists. split; [done|]. split; [by apply (hub_inv_same st)|].
    split; [by apply shrinks_same|done].
Qed.

(** ** [broadcastRoomUsers] *)

Lemma broadcastRoomUsers_inv st room :
  hub_inv st ->
  ∃ st' l, l ≡ₚ elements (rooms st !!! room) ∧
           broadcastRoomUsers st room = Some st' ∧ hub_inv st' ∧
           shrinks room st st' ∧
           routed st' = routed st ++ [roster room (username <$> l)].
Proof.
  intros Hinv. unfold broadcastRoomUsers.
  destruct (rooms st !! room) as [s|] eqn:E.
  - destruct (handleBroadcast_inv (note_range st)
                (roster room (username <$> range_order (ranges st) s)))
      as (st' & Hrun & Hinv' & Hs & Hr); [by apply (hub_inv_same st)|].
    exists st', (range_order (ranges st) s).
    rewrite (lookup_total_correct _ _ _ E). split; [apply range_perm|done].
  - destruct (handleBroadcast_inv st (roster room []))
      as (st' & Hrun & Hinv' & Hs & Hr); [exact Hinv|].
    exists st', []. rewrite (lookup_total_None _ _ E).
    split; [by rewrite elements_empty|done].
Qed.

(** ** [handleRegister] *)

(** The room map after the first two statements of [handleRegister]. *)
Lemma elem_of_rooms_joined (rs : gmap string (gset Client)) c r c' :
  let rooms1 :=
    match rs !! room c with
    | Some _ => rs
    | None => <[room c := ∅]> rs
    end in
  c' ∈ <[room c := {[c]} ∪ rooms1 !!! room c]> rooms1 !!! r ↔
  c' ∈ rs !!! r ∨ (r = room c ∧ c' = c).
Proof.
  simpl. destruct (decide (r = room c)) as [->|Hne].
  - rewrite lookup_total_insert_eq.
    destruct (rs !! room c) as [s|] eqn:E.
    + set_solver.
    + rewrite lookup_total_insert_eq, (lookup_total_None _ _ E). set_solver.
  - rewrite lookup_total_insert_ne by done.
    destruct (rs !! room c) as [s|] eqn:E.
    + tauto.
    + rewrite lookup_total_insert_ne by done. tauto.
Qed.

(** Registering a newly allocated client: no panic, the invariant is
    kept, the client is a member afterwards, and one roster of the room
    with the new client in it has been routed. *)
Lemma handleRegister_inv st c :
  hub_inv st -> chans st !! c = None ->
  ∃ st' l, handleRegister (new_client c st) c = Some st' ∧ hub_inv st' ∧
           l ≡ₚ elements ({[c]} ∪ rooms st !!! room c) ∧
           routed st' = routed st ++ [roster (room c) (username <$> l)] ∧
           c ∈ clients st' ∧ c ∈ rooms st' !!! room c ∧
           (∀ r, r ≠ room c -> rooms st' !! r = rooms st !! r).
Proof.
  intros [[Hin Hone] Hopen] Hnew. unfold handleRegister.
  pose proof (elem_of_rooms_joined (rooms (new_client c st)) c) as Hj.
  simpl in Hj.
  set (rs2 := <[room c := _]> _) in *.
  set (st1 := set_members _ rs2 _).
  assert (Hmem : ∀ r c', c' ∈ rooms st1 !!! r ↔
                         c' ∈ rooms st !!! r ∨ (r = room c ∧ c' = c))
    by exact Hj.
  assert (Hch : ∀ c', chans st1 !! c' =
                      if decide (c' = c) then Some (make_chan sendBufferSize)
                      else chans st !! c').
  { intros c'. simpl. case_decide as Hd.
    - subst. by rewrite lookup_insert_eq.
    - by rewrite lookup_insert_ne. }
  assert (Hinv1 : hub_inv st1).
  { split; [split|].
    - intros c' Hc'. apply Hmem.
      change (c' ∈ {[c]} ∪ clients st) in Hc'.
      apply elem_of_union in Hc' as [->%elem_of_singleton|Hc'];
        [by right|]. left. by apply Hin.
    - intros r c'. rewrite Hmem.
      change (clients st1) with ({[c]} ∪ clients st).
      rewrite elem_of_union, elem_of_singleton.
      intros [Hc|[-> ->]]; [|by split; [|left]].
      destruct (Hone r c' Hc). by split; [|right].
    - intros r c'. rewrite Hmem, Hch. intros [Hc|[-> ->]].
      + case_decide; [by eexists|]. by apply (Hopen r).
      + rewrite decide_True by done. by eexists. }
  destruct (broadcastRoomUsers_inv st1 (room c) Hinv1)
    as (st' & l & Hl & Hrun & Hinv' & Hs & Hr).
  exists st', l. split; [done|]. split; [done|].
  assert (Hset : rooms st1 !!! room c = {[c]} ∪ rooms st !!! room c).
  { apply set_eq. intros c'. rewrite Hmem. set_solver. }
  rewrite Hset in Hl. split; [done|]. split; [done|].
  destruct Hs as (_ & _ & _ & _ & Hk1 & Hk2 & Hk3).
  assert (Hnf : ¬ chan_full (chans st1 !! c)).
  { rewrite Hch, decide_True by done. simpl. tauto. }
  split; [|split].
  - apply Hk1; [|done]. change (c ∈ {[c]} ∪ clients st). set_solver.
  - apply Hk2; [|done]. apply Hmem. by right.
  - intros r Hne. rewrite Hk3 by done. subst st1 rs2. simpl.
    rewrite lookup_insert_ne by done.
    destruct (rooms st !! room c); [done|]. by rewrite lookup_insert_ne.
Qed.

(** ** [handleUnregister] *)

Lemma handleUnregister_unknown st c :
  c ∉ clients st -> handleUnregister st c = Some st.
Proof. intros Hc. unfold handleUnregister. by rewrite decide_False. Qed.

Lemma hub_inv_members st st' :
  clients st' = clients st -> chans st' = chans st ->
  (∀ r, rooms st' !!! r = rooms st !!! r) ->
  hub_inv st -> hub_inv st'.
Proof.
  unfold hub_inv, one_room, members_open. intros -> -> Hr.
  by setoid_rewrite Hr.
Qed.

Lemma lookup_total_delete_empty (rs : gmap string (gset Client)) r r' :
  size (rs !!! r) = 0 -> delete r rs !!! r' = rs !!! r'.
Proof.
  intros Hsz. destruct (decide (r' = r)) as [->|Hne].
  - rewrite lookup_total_delete_eq. symmetry.
    apply leibniz_equiv, size_empty_iff, Hsz.
  - by rewrite lookup_total_delete_ne.
Qed.

(** The state after the two [delete] statements. *)
Lemma removed_hub_inv st c :
  hub_inv st ->
  hub_inv (set_members (clients st ∖ {[c]})
             (room_delete (room c) c (rooms st)) st).
Proof.
  intros [[Hin Hone] Hopen]. split; [split|]; simpl.
  - intros c'. rewrite elem_of_difference, elem_of_singleton.
    intros [Hc Hne]. apply elem_of_room_delete. split; [by apply Hin|].
    tauto.
  - intros r c'. rewrite elem_of_room_delete. intros [Hc Hne].
    destruct (Hone r c' Hc) as [-> Hcl]. split; [done|].
    rewrite elem_of_difference, elem_of_singleton. split; [done|].
    intros ->. tauto.
  - intros r c'. simpl. rewrite elem_of_room_delete. intros [Hc _].
    by apply (Hopen r).
Qed.

(** Unregistering a known client: no panic, the invariant is kept, the
    client is gone from both sets, its own channel is untouched, and
    exactly the leave message and one roster without the client have
    been routed, in this order. *)
Lemma handleUnregister_known st c :
  hub_inv st -> c ∈ clients st ->
  ∃ st' l, handleUnregister st c = Some st' ∧ hub_inv st' ∧
           (c ∉ clients st') ∧ (c ∉ rooms st' !!! room c) ∧
           chans st' !! c = chans st !! c ∧
           routed st' =
             routed st ++ [leftMessage c; roster (room c) (username <$> l)] ∧
           (∀ c', c' ∈ l -> c' ≠ c ∧ c' ∈ rooms st !!! room c) ∧
           (rooms st' !! room c = None ∨ rooms st' !!! room c ≠ ∅) ∧
           (∀ r, r ≠ room c -> rooms st' !! r = rooms st !! r).
Proof.
  intros Hinv Hc. unfold handleUnregister. rewrite decide_True by done.
  set (st1 := set_members _ _ st).
  pose proof (removed_hub_inv st c Hinv) as Hinv1. fold st1 in Hinv1.
  assert (Hout1 : c ∉ rooms st1 !!! room c).
  { simpl. rewrite elem_of_room_delete. tauto. }
  assert (Hcl1 : c ∉ clients st1) by (simpl; set_solver).
  destruct (handleBroadcast_inv st1 (leftMessage c) Hinv1)
    as (st2 & -> & Hinv2 & (S1 & S2 & _ & S4 & _ & _ & S7) & Hr2).
  destruct (broadcastRoomUsers_inv st2 (room c) Hinv2)
    as (st3 & l & Hl & -> & Hinv3 & (T1 & T2 & _ & T4 & _ & _ & T7) & Hr3).
  simpl in S4, S7.
  assert (Hoth : ∀ r, r ≠ room c -> rooms st3 !! r = rooms st !! r).
  { intros r Hne. rewrite T7, S7 by done. by apply room_delete_other. }
  assert (Hout2 : c ∉ rooms st2 !!! room c) by (intros ?%S2; done).
  assert (Hout3 : c ∉ rooms st3 !!! room c) by (intros ?%T2; done).
  assert (Hcl3 : c ∉ clients st3) by (intros ?%T1%S1; done).
  assert (Hch3 : chans st3 !! c = chans st !! c).
  { rewrite T4 by done. by rewrite S4. }
  assert (Hrt : routed st3 =
            routed st ++ [leftMessage c; roster (room c) (username <$> l)]).
  { rewrite Hr3, Hr2. simpl. by rewrite <- app_assoc. }
  assert (Hlist : ∀ c', c' ∈ l -> c' ≠ c ∧ c' ∈ rooms st !!! room c).
  { intros c'. rewrite Hl, elem_of_elements. intros Hc'%S2.
    simpl in Hc'. apply elem_of_room_delete in Hc'. tauto. }
  case_decide as Hsz.
  - eexists _, l. split; [done|]. simpl.
    split; [by apply (hub_inv_members st3);
              [..|intros r; apply lookup_total_delete_empty|]|].
    rewrite lookup_total_delete_eq, lookup_delete_eq.
    split; [done|]. split; [set_solver|]. split; [done|].
    split; [done|]. split; [done|]. split; [by left|].
    intros r Hne. rewrite lookup_delete_ne by done. by apply Hoth.
  - exists st3, l. split; [done|]. split; [done|].
    split; [done|]. split; [done|]. split; [done|].
    split; [done|]. split; [done|]. split; [|done]. right. intros Hempty.
    apply Hsz. rewrite Hempty. apply size_empty.
Qed.

(** ** Every reachable state satisfies the invariant *)

Lemma NewHub_hub_inv : hub_inv NewHub.
Proof.
  split; [split|]; simpl.
  - set_solver.
  - intros r c. rewrite lookup_total_empty. set_solver.
  - intros r c. simpl. rewrite lookup_total_empty. set_solver.
Qed.

Lemma receive_hub_inv st c : hub_inv st -> hub_inv (receive st c).
Proof.
  intros [Hone Hopen]. unfold receive.
  destruct (chans st !! c) as [ch|] eqn:E; [|done].
  split; [exact Hone|]. intros r c' Hc'. simpl.
  destruct (Hopen r c' Hc') as (ch' & Hch' & Hcl).
  destruct (decide (c' = c)) as [->|Hne].
  - rewrite lookup_insert_eq. eexists. split; [done|]. simpl. congruence.
  - rewrite lookup_insert_ne by done. eauto.
Qed.

Lemma step_hub_inv st e st' :
  hub_inv st -> step st e = Some st' -> hub_inv st'.
Proof.
  intros Hinv. destruct e as [c|c|msg|c]; simpl.
  - destruct (chans st !! c) eqn:E; [done|].
    destruct (handleRegister_inv st c Hinv E) as (st1 & l & -> & H1 & _).
    by intros [= <-].
  - destruct (decide (c ∈ clients st)) as [Hc|Hc].
    + destruct (handleUnregister_known st c Hinv Hc)
        as (st1 & l & -> & H1 & _).
      by intros [= <-].
    + rewrite handleUnregister_unknown by done. by intros [= <-].
  - destruct (handleBroadcast_inv st msg Hinv) as (st1 & -> & H1 & _).
    by intros [= <-].
  - intros [= <-]. by apply receive_hub_inv.
Qed.

Lemma reachable_hub_inv st : reachable st -> hub_inv st.
Proof.
  induction 1 as [|st e st' _ IH Hstep].
  - apply NewHub_hub_inv.
  - by apply (step_hub_inv st e).
Qed.

(** The hub never panics: from a reachable state every event that can
    occur has a successor state. *)
Lemma step_total st e :
  reachable st ->
  match e with Register c => chans st !! c = None | _ => True end ->
  ∃ st', step st e = Some st'.
Proof.
  intros Hinv%reachable_hub_inv He. destruct e as [c|c|msg|c]; simpl.
  - rewrite He.
    destruct (handleRegister_inv st c Hinv He) as (st1 & l & -> & _).
    eauto.
  - destruct (decide (c ∈ clients st)) as [Hc|Hc].
    + destruct (handleUnregister_known st c Hinv Hc)
        as (st1 & l & -> & _). eauto.
    + rewrite handleUnregister_unknown by done. eauto.
  - destruct (handleBroadcast_inv st msg Hinv) as (st1 & -> & _). eauto.
  - eauto.
Qed.

Lemma run_reachable es : ∀ st st',
  reachable st -> run st es = Some st' -> reachable st'.
Proof.
  induction es as [|e es IH]; intros st st' Hst; simpl.
  - by intros [= <-].
  - destruct (step st e) as [st1|] eqn:E; [|done].
    apply IH. by apply (reach_step st e).
Qed.

(** ** Room entries

    [handleRegister] and [handleUnregister] keep the room map free of
    empty entries; [handleBroadcast] on its own does not (see
    [eviction_leaves_empty_room] below). *)

Lemma rooms_nonempty_from st st' roomName :
  rooms_nonempty st ->
  (∀ r, r ≠ roomName -> rooms st' !! r = rooms st !! r) ->
  (rooms st' !! roomName = None ∨ rooms st' !!! roomName ≠ ∅) ->
  rooms_nonempty st'.
Proof.
  intros Hne Hoth Hr r s Hs. destruct (decide (r = roomName)) as [->|Hd].
  - destruct Hr as [Hr|Hr]; [congruence|].
    by rewrite (lookup_total_correct _ _ _ Hs) in Hr.
  - rewrite Hoth in Hs by done. by apply (Hne r).
Qed.

Lemma handleRegister_rooms_nonempty st c st' :
  hub_inv st -> chans st !! c = None -> rooms_nonempty st ->
  handleRegister (new_client c st) c = Some st' -> rooms_nonempty st'.
Proof.
  intros Hinv Hnew Hne Hrun.
  destruct (handleRegister_inv st c Hinv Hnew)
    as (st1 & l & Hrun1 & _ & _ & _ & _ & Hc & Hoth).
  assert (st1 = st') as -> by congruence.
  apply (rooms_nonempty_from st _ (room c)); [done..|].
  right. set_solver.
Qed.

Lemma handleUnregister_rooms_nonempty st c st' :
  hub_inv st -> rooms_nonempty st ->
  handleUnregister st c = Some st' -> rooms_nonempty st'.
Proof.
  intros Hinv Hne Hrun. destruct (decide (c ∈ clients st)) as [Hc|Hc].
  - destruct (handleUnregister_known st c Hinv Hc)
      as (st1 & l & Hrun1 & _ & _ & _ & _ & _ & _ & Hr & Hoth).
    assert (st1 = st') as -> by congruence.
    by apply (rooms_nonempty_from st _ (room c)).
  - rewrite handleUnregister_unknown in Hrun by done.
    injection Hrun as <-. done.
Qed.

(** * The claims *)

(** C2. Routing a message that encodes, in a state that satisfies the
    hub's invariant, does not panic and does not wait (the loop runs to
    its end).  Every member of the message's room has an open channel;
    if its queue is full the channel is closed and the member is taken
    out of the global set and of the room's set; otherwise the bytes
    are appended to its queue and it stays a member.  The only message
    routed in the step is the message itself: no leave message and no
    roster follow an eviction. *)
Theorem route_evicts_saturated_workers st msg jsonMsg :
  hub_inv st -> json_Marshal msg = inl jsonMsg ->
  ∃ st', handleBroadcast st msg = Some st' ∧
         routed st' = routed st ++ [msg] ∧
         ∀ c, c ∈ rooms st !!! RoomName msg ->
           ∃ ch, chans st !! c = Some ch ∧ closed ch = false ∧
             if chan_full (Some ch)
             then chans st' !! c = Some (chan_close ch) ∧
                  (c ∉ clients st') ∧ (c ∉ rooms st' !!! RoomName msg)
             else chans st' !! c = Some (chan_push ch jsonMsg) ∧
                  c ∈ clients st' ∧ c ∈ rooms st' !!! RoomName msg.
Proof.
  intros Hinv Hj.
  destruct (handleBroadcast_delivers st msg jsonMsg Hj)
    as (st' & Hrun & (D1 & _ & D3 & D4 & _) & Hr & _).
  { intros c Hc. by apply (proj2 Hinv (RoomName msg)). }
  exists st'. split; [done|]. split; [done|]. intros c Hc.
  destruct (proj2 Hinv _ _ Hc) as (ch & Hch & Hcl).
  exists ch. split; [done|]. split; [done|].
  destruct (proj2 (proj1 Hinv) _ _ Hc) as [_ Hcl'].
  assert (Hfull : chan_full (chans st !! c) = chan_full (Some ch))
    by (by rewrite Hch).
  rewrite (D1 c Hc), Hch.
  change (chan_after jsonMsg <$> Some ch) with (Some (chan_after jsonMsg ch)).
  unfold chan_after.
  destruct (chan_full (Some ch)) eqn:Hf.
  - split; [done|]. rewrite D3, D4, Hfull.
    split; intros [_ Hn]; apply Hn; by repeat split.
  - split; [done|]. rewrite D3, D4, Hfull.
    split; (split; [done|]); intros Hn; by destruct_and!.
Qed.


(** C4. Routing a message in a state that satisfies the hub's invariant
    leaves the channel of every client outside the set of the message's
    room as it was; in particular the channel of every member of any
    other room. *)
Theorem route_room_isolation st msg :
  hub_inv st ->
  ∃ st', handleBroadcast st msg = Some st' ∧
         (∀ c, c ∉ rooms st !!! RoomName msg ->
               chans st' !! c = chans st !! c) ∧
         (∀ r c, r ≠ RoomName msg -> c ∈ rooms st !!! r ->
               chans st' !! c = chans st !! c).
Proof.
  intros Hinv.
  destruct (handleBroadcast_inv st msg Hinv)
    as (st' & Hrun & _ & (_ & _ & _ & Hch & _) & _).
  exists st'. split; [done|]. split; [done|].
  intros r c Hne Hc. apply Hch. intros Hc'.
  destruct (proj2 (proj1 Hinv) _ _ Hc) as [-> _].
  by destruct (proj2 (proj1 Hinv) _ _ Hc').
Qed.

(** C5. Unregistering a client that is not in the global set returns
    the state as it was (nothing routed).  Unregistering a client that
    is in the global set, in a state that satisfies the hub's
    invariant, takes it out of the global set and of its room's set and
    routes exactly two messages for its room: its leave message, then
    one roster. *)
Theorem unregister_unknown_and_known st c :
  (c ∉ clients st -> handleUnregister st c = Some st) ∧
  (hub_inv st -> c ∈ clients st ->
   ∃ st' users,
     handleUnregister st c = Some st' ∧
     (c ∉ clients st') ∧ (c ∉ rooms st' !!! room c) ∧
     routed st' = routed st ++ [leftMessage c; roster (room c) users]).
Proof.
  split; [apply handleUnregister_unknown|]. intros Hinv Hc.
  destruct (handleUnregister_known st c Hinv Hc)
    as (st' & l & Hrun & _ & H1 & H2 & _ & Hr & _).
  by exists st', (username <$> l).
Qed.

(** C6. The roster [broadcastRoomUsers] routes for a room (the only
    place where the hub builds an [online_users] message) has the
    usernames of the members of the room's set at that moment, each
    once per member and in some order, joined by commas, as content,
    and the empty string as username. *)
Theorem roster_lists_room_members st room :
  hub_inv st ->
  ∃ st' users,
    broadcastRoomUsers st room = Some st' ∧
    users ≡ₚ username <$> elements (rooms st !!! room) ∧
    routed st' =
      routed st ++ [{| Type_ := "online_users"; Content := Join users ",";
                       RoomName := room; Username := "" |}].
Proof.
  intros Hinv.
  destruct (broadcastRoomUsers_inv st room Hinv)
    as (st' & l & Hl & Hrun & _ & _ & Hr).
  exists st', (username <$> l). split; [done|]. split; [|done].
  by rewrite Hl.
Qed.

(** C7. In every reachable state each client of the global set is in
    the set of its own room and in no other room's set, and every
    member of a room set is in the global set; every step of the hub
    from such a state leads to a state with the same property. *)
Theorem reachable_one_room st :
  reachable st ->
  (∀ c, c ∈ clients st ->
        c ∈ rooms st !!! room c ∧ ∀ r, c ∈ rooms st !!! r -> r = room c) ∧
  (∀ r c, c ∈ rooms st !!! r -> c ∈ clients st) ∧
  (∀ e st', step st e = Some st' -> one_room st').
Proof.
  intros Hreach.
  pose proof (reachable_hub_inv st Hreach) as [[Hin Hone] Hopen].
  split; [|split].
  - intros c Hc. split; [by apply Hin|]. intros r Hr.
    by destruct (Hone r c Hr).
  - intros r c Hr. by destruct (Hone r c Hr).
  - intros e st' Hstep.
    by destruct (reachable_hub_inv st' (reach_step st e st' Hreach Hstep)).
Qed.

(** C8. When the encoding of a message fails, [handleBroadcast] returns
    (no panic) a state with the same global set, the same room map and
    the same channels, hence with nothing delivered, and with one more
    line in the log. *)
Theorem encode_error_drops_message st msg err :
  json_Marshal msg = inr err ->
  ∃ st', handleBroadcast st msg = Some st' ∧
         clients st' = clients st ∧ rooms st' = rooms st ∧
         chans st' = chans st ∧
         logged st' = logged st ++ ["Error marshaling message: " +:+ err].
Proof.
  intros Hj. rewrite (handleBroadcast_encode_error st msg err Hj).
  by eexists.
Qed.

(** C10. Unregistering a client of the global set, in a state that
    satisfies the hub's invariant, leaves the client's own channel as
    it was: the leave message and the roster that follows are routed
    after the client has left both sets, and the roster is built from
    members other than the client. *)
Theorem unregister_spares_own_queue st c :
  hub_inv st -> c ∈ clients st ->
  ∃ st' l,
    handleUnregister st c = Some st' ∧
    chans st' !! c = chans st !! c ∧
    routed st' =
      routed st ++ [leftMessage c; roster (room c) (username <$> l)] ∧
    c ∉ l.
Proof.
  intros Hinv Hc.
  destruct (handleUnregister_known st c Hinv Hc)
    as (st' & l & Hrun & _ & _ & _ & Hch & Hr & Hl & _).
  exists st', l. split; [done|]. split; [done|]. split; [done|].
  intros Hin. by destruct (Hl c Hin).
Qed.

End Properties.

(** C9. The timing constants of the client: the read deadline is 60
    seconds, the ping period is nine tenths of it, that is 54 seconds
    and less than the deadline, a write may take 10 seconds, and an
    inbound message has at most 512 bytes. *)
Theorem timing_constants :
  (Timing.pongWait = 60 * Timing.Second ∧
   10 * Timing.pingPeriod = 9 * Timing.pongWait ∧
   Timing.pingPeriod = 54 * Timing.Second ∧
   Timing.pingPeriod < Timing.pongWait ∧
   Timing.writeWait = 10 * Timing.Second ∧
   Timing.Second = 1000000000 ∧
   Timing.maxMessageSize = 512)%Z.
Proof. by vm_compute. Qed.

(** ** Concrete runs *)

Lemma plain_runtime_visits_all : range_visits_all plain_runtime.
Proof. intros n s. reflexivity. Qed.

Lemma zigzag_runtime_visits_all : range_visits_all zigzag_runtime.
Proof.
  intros n s. simpl. destruct (Nat.even n); [done|].
  apply reverse_Permutation.
Qed.

Lemma failing_runtime_visits_all : range_visits_all failing_runtime.
Proof. intros n s. reflexivity. Qed.

Lemma state_after_reachable rt es : reachable (rt := rt) (state_after rt es).
Proof.
  unfold state_after. destruct (run NewHub es) as [st|] eqn:E; simpl.
  - apply (run_reachable es NewHub); [apply reach_init|done].
  - apply reach_init.
Qed.

Lemma state_after_hub_inv rt es :
  range_visits_all rt -> hub_inv (state_after rt es).
Proof.
  intros Hrt. apply (reachable_hub_inv Hrt), state_after_reachable.
Qed.

(** C1 fails on the code.  Alice is alone in the lobby and her queue
    is full; the next frame routed to the lobby evicts her, and the
    lobby keeps its entry in the room map with an empty set.  The entry
    is still there after her [readPump] has sent its unregister. *)
Theorem eviction_leaves_empty_room :
  let st := state_after plain_runtime (alice_saturated ++ frames alice 1) in
  reachable (rt := plain_runtime) st ∧
  clients st = ∅ ∧
  rooms st !! "lobby" = Some ∅ ∧
  ¬ rooms_nonempty st ∧
  handleUnregister (rt := plain_runtime) st alice = Some st.
Proof.
  intros st.
  assert (Hreach : reachable (rt := plain_runtime) st)
    by apply state_after_reachable.
  assert (Hc : clients st = ∅) by (vm_compute; reflexivity).
  assert (Hr : rooms st !! "lobby" = Some ∅) by (vm_compute; reflexivity).
  clearbody st.
  split; [exact Hreach|]. split; [exact Hc|]. split; [exact Hr|]. split.
  - intros Hne. by apply (Hne "lobby" ∅ Hr).
  - apply handleUnregister_unknown. rewrite Hc. set_solver.
Qed.


(** ** The theorems at concrete states *)

(** C2 at the saturated lobby: a frame of Bob is routed while Alice's
    queue is full and Bob's is not. *)
Lemma route_evicts_saturated_workers_witness :
  let st := state_after plain_runtime lobby_saturated in
  let msg := chatMessage bob "hi" in
  hub_inv st ∧ plain_json msg = inl (plain_bytes msg) ∧
  ∃ st', handleBroadcast (rt := plain_runtime) st msg = Some st' ∧
         routed st' = routed st ++ [msg] ∧
         ∀ c, c ∈ rooms st !!! RoomName msg ->
           ∃ ch, chans st !! c = Some ch ∧ closed ch = false ∧
             if chan_full (Some ch)
             then chans st' !! c = Some (chan_close ch) ∧
                  (c ∉ clients st') ∧ (c ∉ rooms st' !!! RoomName msg)
             else chans st' !! c = Some (chan_push ch (plain_bytes msg)) ∧
                  c ∈ clients st' ∧ c ∈ rooms st' !!! RoomName msg.
Proof.
  intros st msg.
  assert (Hinv : hub_inv st)
    by apply (state_after_hub_inv _ _ plain_runtime_visits_all).
  clearbody st.
  split; [exact Hinv|]. split; [reflexivity|].
  exact (route_evicts_saturated_workers plain_runtime_visits_all
           st msg (plain_bytes msg) Hinv eq_refl).
Defined.


(** C4 at three clients in two rooms: a frame of Alice is routed. *)
Lemma route_room_isolation_witness :
  let st := state_after plain_runtime three_clients in
  let msg := chatMessage alice "hi" in
  hub_inv st ∧
  ∃ st', handleBroadcast (rt := plain_runtime) st msg = Some st' ∧
         (∀ c, c ∉ rooms st !!! RoomName msg ->
               chans st' !! c = chans st !! c) ∧
         (∀ r c, r ≠ RoomName msg -> c ∈ rooms st !!! r ->
               chans st' !! c = chans st !! c).
Proof.
  intros st msg.
  assert (Hinv : hub_inv st)
    by apply (state_after_hub_inv _ _ plain_runtime_visits_all).
  clearbody st.
  split; [exact Hinv|].
  exact (route_room_isolation plain_runtime_visits_all st msg Hinv).
Defined.

(** C5 at three clients in two rooms: Dave was never admitted, Bob is
    a member of the lobby. *)
Lemma unregister_unknown_and_known_witness :
  let st := state_after plain_runtime three_clients in
  ((dave ∉ clients st) ∧
   handleUnregister (rt := plain_runtime) st dave = Some st) ∧
  (hub_inv st ∧ bob ∈ clients st ∧
   ∃ st' users,
     handleUnregister (rt := plain_runtime) st bob = Some st' ∧
     (bob ∉ clients st') ∧ (bob ∉ rooms st' !!! room bob) ∧
     routed st' = routed st ++ [leftMessage bob; roster (room bob) users]).
Proof.
  intros st.
  assert (Hinv : hub_inv st)
    by apply (state_after_hub_inv _ _ plain_runtime_visits_all).
  assert (Hdave : dave ∉ clients st)
    by (apply (bool_decide_unpack _); vm_compute; exact I).
  assert (Hbob : bob ∈ clients st)
    by (apply (bool_decide_unpack _); vm_compute; exact I).
  clearbody st.
  split.
  - split; [exact Hdave|].
    exact (proj1 (unregister_unknown_and_known plain_runtime_visits_all
                    st dave) Hdave).
  - split; [exact Hinv|]. split; [exact Hbob|].
    exact (proj2 (unregister_unknown_and_known plain_runtime_visits_all
                    st bob) Hinv Hbob).
Defined.

(** C6 at the lobby of Alice and Bob, with a runtime that changes the
    order of its visits. *)
Lemma roster_lists_room_members_witness :
  let st := state_after zigzag_runtime three_clients in
  hub_inv st ∧
  ∃ st' users,
    broadcastRoomUsers (rt := zigzag_runtime) st "lobby" = Some st' ∧
    users ≡ₚ username <$> elements (rooms st !!! "lobby") ∧
    routed st' =
      routed st ++ [{| Type_ := "online_users"; Content := Join users ",";
                       RoomName := "lobby"; Username := "" |}].
Proof.
  intros st.
  assert (Hinv : hub_inv st)
    by apply (state_after_hub_inv _ _ zigzag_runtime_visits_all).
  clearbody st.
  split; [exact Hinv|].
  exact (roster_lists_room_members zigzag_runtime_visits_all
           st "lobby" Hinv).
Defined.

(** C7 at the state in which Alice has just been evicted. *)
Lemma reachable_one_room_witness :
  let st := state_after plain_runtime (lobby_saturated ++ frames bob 1) in
  reachable (rt := plain_runtime) st ∧
  (∀ c, c ∈ clients st ->
        c ∈ rooms st !!! room c ∧ ∀ r, c ∈ rooms st !!! r -> r = room c) ∧
  (∀ r c, c ∈ rooms st !!! r -> c ∈ clients st) ∧
  (∀ e st', step (rt := plain_runtime) st e = Some st' -> one_room st').
Proof.
  intros st.
  assert (Hreach : reachable (rt := plain_runtime) st)
    by apply state_after_reachable.
  clearbody st.
  split; [exact Hreach|].
  exact (reachable_one_room plain_runtime_visits_all st Hreach).
Defined.

(** C8 with an encoder that rejects the message. *)
Lemma encode_error_drops_message_witness :
  let st := state_after failing_runtime three_clients in
  let msg := chatMessage alice "hi" in
  json_Marshal (Runtime := failing_runtime) msg = inr "unsupported value" ∧
  ∃ st', handleBroadcast (rt := failing_runtime) st msg = Some st' ∧
         clients st' = clients st ∧ rooms st' = rooms st ∧
         chans st' = chans st ∧
         logged st' =
           logged st ++
             ["Error marshaling message: " +:+ "unsupported value"].
Proof.
  intros st msg. clearbody st.
  split; [reflexivity|].
  exact (encode_error_drops_message (rt := failing_runtime)
           st msg "unsupported value" eq_refl).
Defined.

(** C10 at three clients in two rooms: Alice leaves. *)
Lemma unregister_spares_own_queue_witness :
  let st := state_after plain_runtime three_clients in
  hub_inv st ∧ alice ∈ clients st ∧
  ∃ st' l,
    handleUnregister (rt := plain_runtime) st alice = Some st' ∧
    chans st' !! alice = chans st !! alice ∧
    routed st' =
      routed st ++
        [leftMessage alice; roster (room alice) (username <$> l)] ∧
    alice ∉ l.
Proof.
  intros st.
  assert (Hinv : hub_inv st)
    by apply (state_after_hub_inv _ _ plain_runtime_visits_all).
  assert (Halice : alice ∈ clients st)
    by (apply (bool_decide_unpack _); vm_compute; exact I).
  clearbody st.
  split; [exact Hinv|]. split; [exact Halice|].
  exact (unregister_spares_own_queue plain_runtime_visits_all
           st alice Hinv Halice).
Defined.

(** ** Two runs in full *)

(** Alice and Bob join the lobby, Alice says hi, Bob disconnects: what
    the two writers find in their queues, in order. *)
Example lobby_conversation :
  let st := state_after plain_runtime
              (admission alice ++ admission bob ++
               [Broadcast (chatMessage alice "hi"); Unregister bob]) in
  buf <$> chans st !! alice =
    Some (plain_bytes <$>
            [roster "lobby" ["alice"]; joinMessage alice;
             roster "lobby" ["bob"; "alice"]; joinMessage bob;
             chatMessage alice "hi";
             leftMessage bob; roster "lobby" ["alice"]]) ∧
  buf <$> chans st !! bob =
    Some (plain_bytes <$>
            [roster "lobby" ["bob"; "alice"]; joinMessage bob;
             chatMessage alice "hi"]) ∧
  elements (clients st) = [alice] ∧
  elements (rooms st !!! "lobby") = [alice].
Proof. vm_compute. repeat split; reflexivity. Qed.

(** A frame of Bob routed to the saturated lobby: Alice is evicted and
    her channel closed, Bob gets the frame, Carol in the den sees
    nothing of it. *)
Example saturated_lobby_route :
  let st := state_after plain_runtime lobby_saturated in
  let st' := state_after plain_runtime (lobby_saturated ++ frames bob 1) in
  (length ∘ buf <$> chans st !! alice, length ∘ buf <$> chans st' !! alice)
    = (Some 256, Some 256) ∧
  (closed <$> chans st !! alice, closed <$> chans st' !! alice)
    = (Some false, Some true) ∧
  (length ∘ buf <$> chans st !! bob, length ∘ buf <$> chans st' !! bob)
    = (Some 252, Some 253) ∧
  chans st' !! carol = chans st !! carol ∧
  elements (clients st') = [bob; carol] ∧
  elements (rooms st' !!! "lobby") = [bob].
Proof.
  vm_compute. repeat split; reflexivity.
Qed.

(** * Further properties of the hub and of the pumps *)

Section Further.
Context {rt : Runtime}.
Hypothesis range_perm : range_visits_all rt.

(** ** The handlers, statement by statement *)

Lemma handleRegister_joined st c :
  handleRegister st c = broadcastRoomUsers (joined st c) (room c).
Proof. reflexivity. Qed.

Lemma elem_of_joined st c r c' :
  c' ∈ rooms (joined st c) !!! r ↔ c' ∈ rooms st !!! r ∨ (r = room c ∧ c' = c).
Proof. apply (elem_of_rooms_joined range_perm (rooms st) c r c'). Qed.

Lemma joined_hub_inv st c :
  hub_inv st -> chans st !! c = None ->
  hub_inv (joined (new_client c st) c).
Proof.
  intros [[Hin Hone] Hopen] Hnew. split; [split|].
  - intros c' Hc'. apply elem_of_joined.
    change (c' ∈ {[c]} ∪ clients st) in Hc'.
    apply elem_of_union in Hc' as [->%elem_of_singleton|Hc'];
      [by right|]. left. by apply Hin.
  - intros r c'. rewrite elem_of_joined.
    change (clients (joined (new_client c st) c)) with ({[c]} ∪ clients st).
    rewrite elem_of_union, elem_of_singleton.
    intros [Hc|[-> ->]]; [|by split; [|left]].
    destruct (Hone r c' Hc). by split; [|right].
  - intros r c'. rewrite elem_of_joined.
    change (chans (joined (new_client c st) c))
      with (<[c := make_chan sendBufferSize]> (chans st)).
    intros [Hc|[-> ->]].
    + destruct (decide (c' = c)) as [->|Hne].
      * rewrite lookup_insert_eq. by eexists.
      * rewrite lookup_insert_ne by done. by apply (Hopen r).
    + rewrite lookup_insert_eq. by eexists.
Qed.

Lemma handleUnregister_steps st c st' :
  c ∈ clients st -> handleUnregister st c = Some st' ->
  ∃ st2 st3,
    handleBroadcast (removed st c) (leftMessage c) = Some st2 ∧
    broadcastRoomUsers st2 (room c) = Some st3 ∧
    clients st' = clients st3 ∧ chans st' = chans st3 ∧
    (∀ r, rooms st' !!! r = rooms st3 !!! r).
Proof.
  intros Hc. unfold handleUnregister. rewrite decide_True by done.
  fold (removed st c).
  destruct (handleBroadcast (removed st c) (leftMessage c)) as [st2|]
    eqn:E2; [|done].
  destruct (broadcastRoomUsers st2 (room c)) as [st3|] eqn:E3; [|done].
  intros Hrun. exists st2, st3. split; [done|]. split; [done|].
  case_decide as Hsz; injection Hrun as <-.
  - split; [done|]. split; [done|]. intros r. simpl.
    by apply lookup_total_delete_empty.
  - by repeat split.
Qed.

(** ** What the hub does to the queues *)

Lemma handleBroadcast_offered st msg st' :
  hub_inv st -> handleBroadcast st msg = Some st' -> offered_once st st'.
Proof.
  intros Hinv Hrun c. destruct (json_Marshal msg) as [j|err] eqn:Hj.
  - destruct (handleBroadcast_delivers range_perm st msg j Hj)
      as (st1 & Hrun1 & (D1 & D2 & _) & _).
    { intros c' Hc'. by apply (proj2 Hinv (RoomName msg)). }
    assert (st1 = st') as -> by congruence.
    destruct (decide (c ∈ rooms st !!! RoomName msg)) as [Hc|Hc].
    + right. destruct (proj2 Hinv _ _ Hc) as (ch & Hch & Hcl).
      exists ch, j. by rewrite (D1 c Hc), Hch.
    + left. by apply D2.
  - rewrite (handleBroadcast_encode_error _ _ _ Hj) in Hrun.
    injection Hrun as <-. by left.
Qed.

Lemma broadcastRoomUsers_offered st room st' :
  hub_inv st -> broadcastRoomUsers st room = Some st' -> offered_once st st'.
Proof.
  intros Hinv. unfold broadcastRoomUsers.
  destruct (rooms st !! room) as [s|]; [|by apply handleBroadcast_offered].
  intros Hrun. apply (handleBroadcast_offered (note_range st) _ st') in Hrun;
    [done|]. by apply (hub_inv_same st).
Qed.

Lemma grows_refl ch : grows ch ch.
Proof. split; [done|]. split; [|done]. exists []. by rewrite app_nil_r. Qed.

Lemma grows_trans ch1 ch2 ch3 : grows ch1 ch2 -> grows ch2 ch3 -> grows ch1 ch3.
Proof.
  intros (Hc1 & [a1 Ha1] & Hcl1) (Hc2 & [a2 Ha2] & Hcl2).
  split; [congruence|]. split.
  - exists (a1 ++ a2). by rewrite Ha2, Ha1, app_assoc.
  - intros Hcl. assert (ch2 = ch1) as -> by auto. auto.
Qed.

Lemma grows_chan_after j ch : closed ch = false -> grows ch (chan_after j ch).
Proof.
  intros Hcl. unfold chan_after. destruct (chan_full (Some ch)).
  - split; [done|]. split; [|congruence]. exists []. simpl.
    by rewrite app_nil_r.
  - split; [done|]. split; [|congruence]. by exists [j].
Qed.

Lemma chan_after_bounded j ch : chan_bounded ch -> chan_bounded (chan_after j ch).
Proof.
  intros [Hcap Hlen]. unfold chan_after.
  destruct (chan_full (Some ch)) eqn:Hf; [done|].
  split; [done|]. simpl in *. rewrite length_app. simpl.
  apply negb_false_iff, Nat.ltb_lt in Hf. lia.
Qed.

Lemma chans_grow_refl st st' : chans st' = chans st -> chans_grow st st'.
Proof. intros E c ch Hch. exists ch. rewrite E. split; [done|apply grows_refl]. Qed.

Lemma chans_grow_trans st1 st2 st3 :
  chans_grow st1 st2 -> chans_grow st2 st3 -> chans_grow st1 st3.
Proof.
  intros H12 H23 c ch Hch. destruct (H12 c ch Hch) as (ch2 & Hch2 & Hg2).
  destruct (H23 c ch2 Hch2) as (ch3 & Hch3 & Hg3).
  exists ch3. split; [done|]. by apply (grows_trans _ ch2).
Qed.

Lemma offered_grow st st' : offered_once st st' -> chans_grow st st'.
Proof.
  intros Hoff c ch Hch. destruct (Hoff c) as [E|(ch0 & j & Hch0 & Hcl & E)].
  - exists ch. rewrite E. split; [done|apply grows_refl].
  - assert (ch0 = ch) as -> by congruence.
    eexists. split; [done|]. by apply grows_chan_after.
Qed.

Lemma offered_bounded st st' :
  offered_once st st' -> chans_bounded st -> chans_bounded st'.
Proof.
  intros Hoff Hb c ch' Hch'.
  destruct (Hoff c) as [E|(ch0 & j & Hch0 & Hcl & E)].
  - rewrite E in Hch'. by apply (Hb c).
  - rewrite E in Hch'. injection Hch' as <-.
    apply chan_after_bounded. by apply (Hb c).
Qed.

(** Each step of the hub keeps every queue within the capacity its
    channel was made with. *)
Lemma step_chans_bounded st e st' :
  hub_inv st -> chans_bounded st -> step st e = Some st' -> chans_bounded st'.
Proof.
  intros Hinv Hb. destruct e as [c|c|msg|c]; simpl.
  - destruct (chans st !! c) eqn:E; [done|].
    rewrite handleRegister_joined. intros Hrun.
    apply broadcastRoomUsers_offered in Hrun; [|by apply joined_hub_inv].
    apply (offered_bounded _ _ Hrun). intros c' ch'. simpl.
    destruct (decide (c' = c)) as [->|Hne].
    + rewrite lookup_insert_eq. intros [= <-]. split; simpl; [done|lia].
    + rewrite lookup_insert_ne by done. apply Hb.
  - destruct (decide (c ∈ clients st)) as [Hc|Hc].
    + intros Hrun.
      destruct (handleUnregister_steps st c st' Hc Hrun)
        as (st2 & st3 & H2 & H3 & _ & Hch & _).
      pose proof (removed_hub_inv range_perm st c Hinv) as Hinv1.
      destruct (handleBroadcast_inv range_perm (removed st c)
                  (leftMessage c) Hinv1) as (st2' & H2' & Hinv2 & _).
      assert (st2' = st2) as -> by congruence.
      apply handleBroadcast_offered in H2; [|done].
      apply broadcastRoomUsers_offered in H3; [|done].
      intros c' ch'. rewrite Hch. revert c' ch'.
      apply (offered_bounded _ _ H3), (offered_bounded _ _ H2). exact Hb.
    + rewrite handleUnregister_unknown by done. by intros [= <-].
  - intros Hrun. apply handleBroadcast_offered in Hrun; [|done].
    by apply (offered_bounded _ _ Hrun).
  - intros [= <-] c' ch'. unfold receive.
    destruct (chans st !! c) as [ch|] eqn:E; [|apply Hb]. simpl.
    destruct (decide (c' = c)) as [->|Hne].
    + rewrite lookup_insert_eq. intros [= <-].
      destruct (Hb c ch E) as [Hcap Hlen]. split; [done|]. simpl.
      destruct (buf ch); simpl in *; lia.
    + rewrite lookup_insert_ne by done. apply Hb.
Qed.

(** Each event of the hub's own channels leaves every allocated queue
    with what it held, in order, at its head. *)
Lemma step_chans_grow st e st' :
  hub_inv st -> hub_event e -> step st e = Some st' -> chans_grow st st'.
Proof.
  intros Hinv He. destruct e as [c|c|msg|c]; simpl; [| | |done].
  - destruct (chans st !! c) eqn:E; [done|].
    rewrite handleRegister_joined. intros Hrun.
    apply broadcastRoomUsers_offered in Hrun; [|by apply joined_hub_inv].
    apply (chans_grow_trans _ (joined (new_client c st) c));
      [|by apply offered_grow].
    intros c' ch' Hch'. exists ch'. split; [|apply grows_refl]. simpl.
    rewrite lookup_insert_ne; [done|]. intros ->. congruence.
  - destruct (decide (c ∈ clients st)) as [Hc|Hc].
    + intros Hrun.
      destruct (handleUnregister_steps st c st' Hc Hrun)
        as (st2 & st3 & H2 & H3 & _ & Hch & _).
      pose proof (removed_hub_inv range_perm st c Hinv) as Hinv1.
      destruct (handleBroadcast_inv range_perm (removed st c)
                  (leftMessage c) Hinv1) as (st2' & H2' & Hinv2 & _).
      assert (st2' = st2) as -> by congruence.
      apply handleBroadcast_offered, offered_grow in H2; [|done].
      apply broadcastRoomUsers_offered, offered_grow in H3; [|done].
      apply (chans_grow_trans _ st3); [|by apply chans_grow_refl].
      by apply (chans_grow_trans _ st2).
    + rewrite handleUnregister_unknown by done. intros [= <-].
      by apply chans_grow_refl.
  - intros Hrun. by apply offered_grow, (handleBroadcast_offered st msg).
Qed.

(** ** Safety of the hub's loop *)

(** X1. From a reachable state no handler panics: the hub never sends
    on a closed channel and never closes a channel twice, whatever
    message is routed, whichever client unregisters, and whenever a
    newly allocated client registers or is admitted. *)
Theorem reachable_never_panics st :
  reachable st ->
  (∀ msg, is_Some (handleBroadcast st msg)) ∧
  (∀ c, is_Some (handleUnregister st c)) ∧
  (∀ c, chans st !! c = None ->
        is_Some (handleRegister (new_client c st) c)) ∧
  (∀ a r u, chans st !! {| addr := a; room := r; username := u |} = None ->
            is_Some (HandleWebSocket st a r u)).
Proof.
  intros Hinv%(reachable_hub_inv range_perm).
  split; [|split; [|split]].
  - intros msg.
    destruct (handleBroadcast_inv range_perm st msg Hinv) as (st' & -> & _).
    by eexists.
  - intros c. destruct (decide (c ∈ clients st)) as [Hc|Hc].
    + destruct (handleUnregister_known range_perm st c Hinv Hc)
        as (st' & l & -> & _). by eexists.
    + rewrite handleUnregister_unknown by done. by eexists.
  - intros c Hnew.
    destruct (handleRegister_inv range_perm st c Hinv Hnew)
      as (st' & l & -> & _). by eexists.
  - intros a r u Hnew. unfold HandleWebSocket.
    destruct (bool_decide (r = "") || bool_decide (u = "")); [by eexists|].
    destruct (handleRegister_inv range_perm st _ Hinv Hnew)
      as (st1 & l & -> & Hinv1 & _).
    destruct (handleBroadcast_inv range_perm st1
                (joinMessage {| addr := a; room := r; username := u |}) Hinv1)
      as (st2 & -> & _).
    by eexists.
Qed.

(** X2. In every reachable state every channel has the capacity
    [HandleWebSocket] made it with, and holds at most that many
    pending messages. *)
Theorem reachable_queues_bounded st c ch :
  reachable st -> chans st !! c = Some ch ->
  cap ch = sendBufferSize ∧ (length (buf ch) ≤ sendBufferSize)%nat.
Proof.
  intros Hreach. revert c ch.
  induction Hreach as [|st e st' Hreach IH Hstep].
  - intros c ch. simpl. by rewrite lookup_empty.
  - assert (Hb : chans_bounded st').
    { apply (step_chans_bounded st e); [| |done].
      - by apply (reachable_hub_inv range_perm).
      - intros c ch H. destruct (IH c ch H) as [Hcap Hlen].
        split; [done|]. by rewrite Hcap. }
    intros c ch Hch. destruct (Hb c ch Hch) as [Hcap Hlen].
    split; [done|]. by rewrite <- Hcap.
Qed.

(** X3. An event of the hub's own channels (register, unregister,
    route) never removes or reorders pending messages and never
    touches a closed channel: every allocated channel keeps its
    capacity and its pending messages as a prefix of what it holds
    afterwards, and a closed channel is exactly as before. *)
Theorem hub_events_only_append st e st' c ch :
  reachable st -> hub_event e -> step st e = Some st' ->
  chans st !! c = Some ch ->
  ∃ ch', chans st' !! c = Some ch' ∧
         cap ch' = cap ch ∧
         (∃ added, buf ch' = buf ch ++ added) ∧
         (closed ch = true -> ch' = ch).
Proof.
  intros Hinv%(reachable_hub_inv range_perm) He Hstep Hch.
  destruct (step_chans_grow st e st' Hinv He Hstep c ch Hch)
    as (ch' & Hch' & Hg).
  by exists ch'.
Qed.

(** ** Clients that have left *)

Lemma run_app es1 : ∀ es2 st,
  run st (es1 ++ es2) =
    match run st es1 with
    | Some st1 => run st1 es2
    | None => None
    end.
Proof.
  induction es1 as [|e es1 IH]; intros es2 st; simpl; [done|].
  destruct (step st e); [apply IH|done].
Qed.

Lemma hub_inv_not_member st c r :
  hub_inv st -> c ∉ clients st -> c ∉ rooms st !!! r.
Proof. intros [[_ Hone] _] Hc Hr. by destruct (Hone r c Hr). Qed.

(** A step from a state in which an allocated client is in no set
    leaves it there, and does nothing to its channel but take a
    message from it when its writer does. *)
Lemma step_departed st e st' c :
  hub_inv st -> c ∉ clients st -> is_Some (chans st !! c) ->
  step st e = Some st' ->
  (c ∉ clients st') ∧
  (chans st' !! c = chans st !! c ∨ chans st' !! c = chan_pop <$> chans st !! c).
Proof.
  intros Hinv Hc Halloc. destruct e as [c0|c0|msg|c0]; simpl.
  - destruct (chans st !! c0) eqn:E; [done|].
    assert (c ≠ c0) as Hne by (intros ->; rewrite E in Halloc;
                               by destruct Halloc).
    rewrite handleRegister_joined. intros Hrun.
    destruct (broadcastRoomUsers_inv range_perm
                (joined (new_client c0 st) c0) (room c0))
      as (st1 & l & _ & Hrun1 & _ & (S1 & _ & _ & S4 & _) & _);
      [by apply joined_hub_inv|].
    assert (st1 = st') as -> by congruence. split.
    + intros Hin%S1. simpl in Hin. set_solver.
    + left. rewrite S4.
      * simpl. by rewrite lookup_insert_ne.
      * rewrite elem_of_joined. intros [Hr|[_ ->]]; [|done].
        by apply (hub_inv_not_member st c (room c0) Hinv Hc).
  - destruct (decide (c0 ∈ clients st)) as [Hc0|Hc0].
    + intros Hrun.
      destruct (handleUnregister_steps st c0 st' Hc0 Hrun)
        as (st2 & st3 & H2 & H3 & Hcl & Hch & _).
      pose proof (removed_hub_inv range_perm st c0 Hinv) as Hinv1.
      destruct (handleBroadcast_inv range_perm (removed st c0)
                  (leftMessage c0) Hinv1)
        as (st2' & H2' & Hinv2 & (S1 & S2 & _ & S4 & _) & _).
      assert (st2' = st2) as -> by congruence.
      destruct (broadcastRoomUsers_inv range_perm st2 (room c0) Hinv2)
        as (st3' & l & _ & H3' & _ & (T1 & T2 & _ & T4 & _) & _).
      assert (st3' = st3) as -> by congruence.
      assert (Hout1 : c ∉ rooms (removed st c0) !!! room c0).
      { simpl. rewrite (elem_of_room_delete range_perm). intros [Hr _].
        by apply (hub_inv_not_member st c (room c0) Hinv Hc). }
      simpl in S4. split.
      * rewrite Hcl. intros Hin%T1%S1. simpl in Hin. set_solver.
      * left. rewrite Hch. rewrite T4 by (intros Hr%S2; done).
        by rewrite S4.
    + rewrite handleUnregister_unknown by done. intros [= <-]. by split; [|left].
  - intros Hrun.
    destruct (handleBroadcast_inv range_perm st msg Hinv)
      as (st1 & Hrun1 & _ & (S1 & _ & _ & S4 & _) & _).
    assert (st1 = st') as -> by congruence. split.
    + intros Hin%S1. done.
    + left. apply S4. by apply hub_inv_not_member.
  - intros [= <-]. unfold receive.
    destruct (chans st !! c0) as [ch0|] eqn:E; [|by split; [|left]].
    split; [done|]. simpl.
    destruct (decide (c = c0)) as [->|Hne].
    + right. by rewrite lookup_insert_eq, E.
    + left. by rewrite lookup_insert_ne.
Qed.

Lemma run_departed es : ∀ st st' c,
  hub_inv st -> c ∉ clients st -> is_Some (chans st !! c) ->
  run st es = Some st' ->
  (c ∉ clients st') ∧ is_Some (chans st' !! c) ∧
  ∃ n, queue st' c = drop n (queue st c).
Proof.
  induction es as [|e es IH]; intros st st' c Hinv Hc Halloc; simpl.
  - intros [= <-]. split; [done|]. split; [done|]. by exists 0.
  - destruct (step st e) as [st1|] eqn:E; [|done]. intros Hrun.
    destruct (step_departed st e st1 c Hinv Hc Halloc E) as [Hc1 Hch1].
    assert (Halloc1 : is_Some (chans st1 !! c)).
    { destruct Halloc as [ch Hch].
      destruct Hch1 as [->| ->]; rewrite Hch; by eexists. }
    destruct (IH st1 st' c) as (Hc' & Halloc' & n & Hq);
      [by apply (step_hub_inv range_perm st e)|done..|].
    split; [done|]. split; [done|].
    destruct Hch1 as [Hsame|Hpop].
    + exists n. rewrite Hq. unfold queue. by rewrite Hsame.
    + exists (S n). rewrite Hq. unfold queue. rewrite Hpop.
      destruct (chans st !! c) as [ch|]; simpl; [|by rewrite drop_nil].
      destruct (buf ch) as [|m q]; simpl; [by rewrite drop_nil|done].
Qed.

Lemma run_hub_inv es : ∀ st st',
  hub_inv st -> run st es = Some st' -> hub_inv st'.
Proof.
  induction es as [|e es IH]; intros st st' Hinv; simpl.
  - by intros [= <-].
  - destruct (step st e) as [st1|] eqn:E; [|done].
    apply IH. by apply (step_hub_inv range_perm st e).
Qed.

Lemma step_allocated st e st' c :
  hub_inv st -> is_Some (chans st !! c) -> step st e = Some st' ->
  is_Some (chans st' !! c).
Proof.
  intros Hinv [ch Hch] Hstep.
  assert (Hhub : hub_event e -> is_Some (chans st' !! c)).
  { intros He.
    destruct (step_chans_grow st e st' Hinv He Hstep c ch Hch)
      as (ch' & Hch' & _).
    by eexists. }
  destruct e as [c0|c0|msg|c0]; [by apply Hhub..|].
  simpl in Hstep. injection Hstep as <-. unfold receive.
  destruct (chans st !! c0) as [ch0|] eqn:E; [|by rewrite Hch].
  simpl. destruct (decide (c = c0)) as [->|Hne].
  - rewrite lookup_insert_eq. by eexists.
  - rewrite lookup_insert_ne by done. by rewrite Hch.
Qed.

Lemma run_allocated es : ∀ st st' c,
  hub_inv st -> is_Some (chans st !! c) -> run st es = Some st' ->
  is_Some (chans st' !! c).
Proof.
  induction es as [|e es IH]; intros st st' c Hinv Halloc; simpl.
  - by intros [= <-].
  - destruct (step st e) as [st1|] eqn:E; [|done].
    apply IH; [by apply (step_hub_inv range_perm st e)|].
    by apply (step_allocated st e).
Qed.

(** X4. No resurrection: a client that has been admitted once and is
    no longer in the global set of a reachable state stays out of the
    global set and of every room set through every further run of the
    server, and nothing is queued for it any more: its queue only
    loses what its writer takes from the head. *)
Theorem departed_never_returns st c es st' :
  reachable st -> is_Some (chans st !! c) -> c ∉ clients st ->
  run st es = Some st' ->
  (c ∉ clients st') ∧ (∀ r, c ∉ rooms st' !!! r) ∧
  ∃ n, queue st' c = drop n (queue st c).
Proof.
  intros Hinv%(reachable_hub_inv range_perm) Halloc Hc Hrun.
  destruct (run_departed es st st' c Hinv Hc Halloc Hrun)
    as (Hc' & _ & Hq).
  split; [done|]. split; [|done]. intros r.
  apply hub_inv_not_member; [|done]. by apply (run_hub_inv es st).
Qed.

Lemma run_after_unregister st c es1 es2 st' :
  hub_inv st -> is_Some (chans st !! c) ->
  run st (es1 ++ Unregister c :: es2) = Some st' ->
  (c ∉ clients st') ∧ ∀ r, c ∉ rooms st' !!! r.
Proof.
  intros Hinv Halloc. rewrite run_app.
  destruct (run st es1) as [st1|] eqn:E1; [|done]. simpl.
  destruct (handleUnregister st1 c) as [st2|] eqn:E2; [|done]. intros Hrun.
  pose proof (run_hub_inv es1 st st1 Hinv E1) as Hinv1.
  pose proof (run_allocated es1 st st1 c Hinv Halloc E1) as Halloc1.
  assert (Hinv2 : hub_inv st2)
    by (by apply (step_hub_inv range_perm st1 (Unregister c))).
  assert (Halloc2 : is_Some (chans st2 !! c))
    by (by apply (step_allocated st1 (Unregister c))).
  assert (Hc2 : c ∉ clients st2).
  { destruct (decide (c ∈ clients st1)) as [Hc|Hc].
    - destruct (handleUnregister_known range_perm st1 c Hinv1 Hc)
        as (st2' & l & Hrun' & _ & Hout & _).
      by assert (st2' = st2) as -> by congruence.
    - rewrite handleUnregister_unknown in E2 by done. congruence. }
  destruct (run_departed es2 st2 st' c Hinv2 Hc2 Halloc2 Hrun)
    as (Hc' & _ & _).
  split; [done|]. intros r.
  apply hub_inv_not_member; [|done]. by apply (run_hub_inv es2 st2).
Qed.

(** X5. Unregistering is final: once the hub has taken the unregister
    event of an admitted client, whatever it took before and takes
    after, the client is in no set. *)
Theorem unregister_is_final st c es1 es2 st' :
  reachable st -> is_Some (chans st !! c) ->
  run st (es1 ++ Unregister c :: es2) = Some st' ->
  (c ∉ clients st') ∧ ∀ r, c ∉ rooms st' !!! r.
Proof.
  intros Hinv%(reachable_hub_inv range_perm) Halloc Hrun.
  by apply (run_after_unregister st c es1 es2).
Qed.

(** ** Room entries on the graceful paths *)

(** X6. When the last member of a room unregisters, the entry of the
    room is deleted from the room map, and the entries of the other
    rooms are as before. *)
Theorem last_member_leaving_deletes_room st c :
  hub_inv st -> c ∈ clients st -> rooms st !!! room c = {[c]} ->
  ∃ st', handleUnregister st c = Some st' ∧
         rooms st' !! room c = None ∧
         ∀ r, r ≠ room c -> rooms st' !! r = rooms st !! r.
Proof.
  intros Hinv Hc Hlast.
  destruct (handleUnregister_known range_perm st c Hinv Hc)
    as (st' & l & Hrun & Hinv' & _ & Hout & _ & _ & _ & Hentry & Hoth).
  exists st'. split; [done|]. split; [|done].
  destruct Hentry as [Hnone|Hne]; [done|]. exfalso. apply Hne.
  destruct (handleUnregister_steps st c st' Hc Hrun)
    as (st2 & st3 & H2 & H3 & _ & _ & Hr).
  pose proof (removed_hub_inv range_perm st c Hinv) as Hinv1.
  destruct (handleBroadcast_inv range_perm (removed st c)
              (leftMessage c) Hinv1)
    as (st2' & H2' & Hinv2 & (_ & S2 & _) & _).
  assert (st2' = st2) as -> by congruence.
  destruct (broadcastRoomUsers_inv range_perm st2 (room c) Hinv2)
    as (st3' & l' & _ & H3' & _ & (_ & T2 & _) & _).
  assert (st3' = st3) as -> by congruence.
  apply set_eq. intros c'. rewrite Hr. split; [|set_solver].
  intros Hin%T2%S2. simpl in Hin. apply (elem_of_room_delete range_perm) in Hin.
  rewrite Hlast in Hin. set_solver.
Qed.

(** X7. An empty room entry can only come from a route that evicts
    every member of a room: a step from a reachable state without
    empty entries leads to a state without empty entries, unless it
    routes a message to a room that has an entry and whose members all
    have a full queue. *)
Theorem only_full_eviction_empties_a_room st e st' :
  reachable st -> rooms_nonempty st -> step st e = Some st' ->
  match e with
  | Broadcast msg =>
      rooms st !! RoomName msg = None ∨
      ∃ c, c ∈ rooms st !!! RoomName msg ∧ ¬ chan_full (chans st !! c)
  | _ => True
  end ->
  rooms_nonempty st'.
Proof.
  intros Hinv%(reachable_hub_inv range_perm) Hne.
  destruct e as [c|c|msg|c]; simpl.
  - destruct (chans st !! c) eqn:E; [done|]. intros Hrun _.
    by apply (handleRegister_rooms_nonempty range_perm st c).
  - intros Hrun _.
    by apply (handleUnregister_rooms_nonempty range_perm st c).
  - intros Hrun Hsome.
    destruct (handleBroadcast_inv range_perm st msg Hinv)
      as (st1 & Hrun1 & _ & (_ & _ & S3 & _ & _ & S6 & S7) & _).
    assert (st1 = st') as -> by congruence.
    apply (rooms_nonempty_from st st' (RoomName msg));
      [done..|].
    destruct Hsome as [Hnone|(c & Hc & Hf)].
    + left. destruct (rooms st' !! RoomName msg) eqn:E; [|done].
      assert (is_Some (rooms st !! RoomName msg)) as [? ?]
        by (apply S3; by eexists).
      congruence.
    + right. pose proof (S6 _ c Hc Hf). set_solver.
  - intros [= <-] _. unfold receive.
    by destruct (chans st !! c).
Qed.

(** X8. Routing never adds a member or a room: the room map has the
    same entries before and after, the global set and every room set
    can only lose members, and a message for a room that has no entry
    changes neither the sets nor any channel. *)
Theorem route_never_creates_rooms st msg :
  hub_inv st ->
  ∃ st', handleBroadcast st msg = Some st' ∧
         dom (rooms st') = dom (rooms st) ∧
         clients st' ⊆ clients st ∧
         (∀ r, rooms st' !!! r ⊆ rooms st !!! r) ∧
         (rooms st !! RoomName msg = None ->
          clients st' = clients st ∧ rooms st' = rooms st ∧
          chans st' = chans st).
Proof.
  intros Hinv.
  destruct (handleBroadcast_inv range_perm st msg Hinv)
    as (st' & Hrun & _ & (S1 & S2 & S3 & _) & _).
  exists st'. split; [done|]. split; [|split; [done|split; [done|]]].
  - apply set_eq. intros r. by rewrite !elem_of_dom.
  - intros Hnone. revert Hrun. unfold handleBroadcast. simpl.
    rewrite Hnone. by destruct (json_Marshal msg); intros [= <-].
Qed.

(** ** Who gets the notifications *)

Lemma handleBroadcast_routed st msg st' :
  hub_inv st -> handleBroadcast st msg = Some st' ->
  routed st' = routed st ++ [msg].
Proof.
  intros Hinv Hrun.
  destruct (handleBroadcast_inv range_perm st msg Hinv)
    as (st1 & Hrun1 & _ & _ & Hr).
  by assert (st1 = st') as -> by congruence.
Qed.

Lemma handleBroadcast_result st msg st' j :
  hub_inv st -> json_Marshal msg = inl j ->
  handleBroadcast st msg = Some st' ->
  delivery (RoomName msg) j (λ c, c ∈ rooms st !!! RoomName msg) st st'.
Proof.
  intros Hinv Hj Hrun.
  destruct (handleBroadcast_delivers range_perm st msg j Hj)
    as (st1 & Hrun1 & Hd & _).
  { intros c Hc. by apply (proj2 Hinv (RoomName msg)). }
  by assert (st1 = st') as -> by congruence.
Qed.

Lemma broadcastRoomUsers_result st room st' users j :
  hub_inv st -> broadcastRoomUsers st room = Some st' ->
  routed st' = routed st ++ [roster room users] ->
  json_Marshal (roster room users) = inl j ->
  delivery room j (λ c, c ∈ rooms st !!! room) st st'.
Proof.
  intros Hinv Hrun Hr Hj. unfold broadcastRoomUsers in Hrun.
  destruct (rooms st !! room) as [s|] eqn:E.
  - assert (Hinv' : hub_inv (note_range st)) by (by apply (hub_inv_same st)).
    pose proof (handleBroadcast_routed _ _ _ Hinv' Hrun) as Hr'.
    rewrite Hr in Hr'. apply app_inj_tail in Hr' as [_ Hm].
    rewrite Hm in Hj.
    exact (handleBroadcast_result (note_range st) _ st' j Hinv' Hj Hrun).
  - pose proof (handleBroadcast_routed _ _ _ Hinv Hrun) as Hr'.
    rewrite Hr in Hr'. apply app_inj_tail in Hr' as [_ Hm].
    rewrite Hm in Hj.
    exact (handleBroadcast_result st _ st' j Hinv Hj Hrun).
Qed.


(** X10. When a client of the global set unregisters, every other
    member of its room whose queue has two free places gets the leave
    message and then the roster at the tail of its queue, is listed in
    that roster, and stays a member. *)
Theorem unregister_notifies_members st c :
  hub_inv st -> c ∈ clients st ->
  ∃ st' l,
    handleUnregister st c = Some st' ∧
    routed st' =
      routed st ++ [leftMessage c; roster (room c) (username <$> l)] ∧
    ∀ jl jr,
      json_Marshal (leftMessage c) = inl jl ->
      json_Marshal (roster (room c) (username <$> l)) = inl jr ->
      ∀ c' ch,
        c' ∈ rooms st !!! room c -> c' ≠ c ->
        chans st !! c' = Some ch -> (length (buf ch) + 2 ≤ cap ch)%nat ->
        chans st' !! c' = Some (chan_push (chan_push ch jl) jr) ∧
        c' ∈ l ∧ c' ∈ clients st' ∧ c' ∈ rooms st' !!! room c.
Proof.
  intros Hinv Hc.
  destruct (handleUnregister_known range_perm st c Hinv Hc)
    as (st' & l0 & Hrun & Hinv' & _).
  destruct (handleUnregister_steps st c st' Hc Hrun)
    as (st2 & st3 & H2 & H3 & Hcl & Hch & Hrm).
  pose proof (removed_hub_inv range_perm st c Hinv) as Hinv1.
  destruct (handleBroadcast_inv range_perm (removed st c)
              (leftMessage c) Hinv1) as (st2' & H2' & Hinv2 & _ & Hr2).
  assert (st2' = st2) as -> by congruence.
  destruct (broadcastRoomUsers_inv range_perm st2 (room c) Hinv2)
    as (st3' & l & Hl & H3' & Hinv3 & _ & Hr3).
  assert (st3' = st3) as -> by congruence.
  assert (Hrt : routed st' = routed st3).
  { revert Hrun. unfold handleUnregister. rewrite decide_True by done.
    fold (removed st c). rewrite H2, H3.
    by case_decide; intros [= <-]. }
  exists st', l. split; [done|]. split.
  { rewrite Hrt, Hr3, Hr2. simpl. by rewrite <- app_assoc. }
  intros jl jr Hjl Hjr c' ch Hc' Hne Hch' Hlen.
  destruct (handleBroadcast_result (removed st c) (leftMessage c) st2 jl
              Hinv1 Hjl H2) as (D1 & _ & _ & D4 & _).
  simpl in D1, D4.
  assert (Hin1 : c' ∈ room_delete (room c) c (rooms st) !!! room c).
  { apply (elem_of_room_delete range_perm). split; [done|]. tauto. }
  assert (Hf1 : chan_full (Some ch) = false).
  { simpl. apply negb_false_iff, Nat.ltb_lt. lia. }
  assert (Hq2 : chans st2 !! c' = Some (chan_push ch jl)).
  { rewrite (D1 c' Hin1), Hch'. simpl. unfold chan_after. by rewrite Hf1. }
  assert (Hin2 : c' ∈ rooms st2 !!! room c).
  { apply D4. split; [done|]. intros (_ & _ & Hf).
    by rewrite Hch', Hf1 in Hf. }
  destruct (broadcastRoomUsers_result st2 (room c) st3 (username <$> l) jr
              Hinv2 H3 Hr3 Hjr) as (E1 & _ & E3 & E4 & _).
  assert (Hf2 : chan_full (Some (chan_push ch jl)) = false).
  { simpl. apply negb_false_iff, Nat.ltb_lt. rewrite length_app. simpl. lia. }
  destruct (proj2 (proj1 Hinv2) _ _ Hin2) as [_ Hcl2].
  split; [|split; [|split]].
  - rewrite Hch, (E1 c' Hin2), Hq2. simpl. unfold chan_after.
    by rewrite Hf2.
  - rewrite Hl. by apply elem_of_elements.
  - rewrite Hcl. apply E3. split; [done|]. intros [_ Hf].
    by rewrite Hq2, Hf2 in Hf.
  - rewrite Hrm. apply E4. split; [done|]. intros (_ & _ & Hf).
    by rewrite Hq2, Hf2 in Hf.
Qed.

(** ** [readPump] *)

Lemma readPump_error_hub_events c err rest :
  hub_events (readPump c (inr err :: rest)) = [Unregister c] ∧
  last (readPump c (inr err :: rest)) = Some ConnClose.
Proof.
  simpl.
  by destruct (IsUnexpectedCloseError err
                 [CloseGoingAway; CloseAbnormalClosure]).
Qed.

(** X11. [readPump] forwards every frame read before the first failed
    read, in order, as a chat message under the client's own room and
    username, and nothing that is read after it; at the first failed
    read it sends the hub one unregister for its client and then
    closes the connection.  As long as no read fails it neither
    unregisters nor closes. *)
Theorem readPump_until_first_error c frames err rest :
  hub_events (readPump c ((inl <$> frames) ++ inr err :: rest)) =
    (Broadcast ∘ chatMessage c <$> frames) ++ [Unregister c] ∧
  last (readPump c ((inl <$> frames) ++ inr err :: rest)) = Some ConnClose ∧
  readPump c (inl <$> frames) = (ToHub ∘ Broadcast ∘ chatMessage c) <$> frames.
Proof.
  induction frames as [|frame frames (IH1 & IH2 & IH3)].
  - destruct (readPump_error_hub_events c err rest) as [H1 H2].
    by repeat split.
  - split; [|split].
    + change (Broadcast (chatMessage c frame) ::
                hub_events (readPump c ((inl <$> frames) ++ inr err :: rest))
              = (Broadcast ∘ chatMessage c <$> frame :: frames)
                ++ [Unregister c]).
      by rewrite IH1.
    + change (last (ToHub (Broadcast (chatMessage c frame)) ::
                    readPump c ((inl <$> frames) ++ inr err :: rest))
              = Some ConnClose).
      destruct (readPump c ((inl <$> frames) ++ inr err :: rest)); done.
    + change (ToHub (Broadcast (chatMessage c frame)) ::
                readPump c (inl <$> frames)
              = (ToHub ∘ Broadcast ∘ chatMessage c) <$> frame :: frames).
      by rewrite IH3.
Qed.

(** X12. Cleanup on disconnect: when a read of an admitted client's
    [readPump] fails, then once the hub has taken the events of that
    pump, in whatever way they were interleaved with other events, the
    client is in no set of the hub. *)
Theorem readPump_exit_leaves_hub st c frames err rest es st' :
  reachable st -> is_Some (chans st !! c) ->
  sublist (hub_events (readPump c ((inl <$> frames) ++ inr err :: rest))) es ->
  run st es = Some st' ->
  (c ∉ clients st') ∧ ∀ r, c ∉ rooms st' !!! r.
Proof.
  intros Hinv%(reachable_hub_inv range_perm) Halloc Hsub Hrun.
  assert (Hin : Unregister c ∈ es).
  { apply (elem_of_sublist _ _ _ (A := Event)) with (2 := Hsub).
    destruct (readPump_error_hub_events c err rest) as [He _].
    clear Hsub Hrun. induction frames as [|frame frames IH].
    - simpl in *. rewrite He. by left.
    - right. exact IH. }
  apply list_elem_of_split in Hin as (es1 & es2 & ->).
  by apply (run_after_unregister st c es1 es2).
Qed.

(** ** [writePump] *)

Lemma writePump_turn_state st c k :
  (writePump_turn st c k).1.1 = st ∨
  (writePump_turn st c k).1.1 = receive st c.
Proof.
  destruct k as [ok|ok]; simpl.
  - destruct (chans st !! c) as [ch|]; [|by left].
    destruct (buf ch); [destruct (closed ch); by left|].
    destruct ok; by right.
  - destruct ok; by left.
Qed.

(** X13. The writer never interferes with the hub: the state in which
    [writePump] leaves the server after any number of turns is a
    reachable state again (each turn leaves the state as it was or
    takes the message at the head of its own client's queue), so every
    invariant of the hub survives the writers. *)
Theorem writePump_keeps_reachable st c script :
  reachable st -> reachable (writePump st c script).1.
Proof.
  revert st. induction script as [|k script IH]; intros st Hreach; [done|].
  simpl.
  assert (Hreach1 : reachable (writePump_turn st c k).1.1).
  { destruct (writePump_turn_state st c k) as [-> | ->]; [done|].
    by apply (reach_step st (Receive c)). }
  destruct (writePump_turn st c k) as [[st1 acts] [|]]; simpl in *.
  - specialize (IH st1 Hreach1). by destruct (writePump st1 c script).
  - done.
Qed.

Lemma queue_receive st c : queue (receive st c) c = tail (queue st c).
Proof.
  unfold receive, queue. destruct (chans st !! c) as [ch|] eqn:E.
  - simpl. by rewrite lookup_insert_eq.
  - by rewrite E.
Qed.

(** X14. While the hub is quiet the writer hands the pending messages
    of its client to the connection in the order of the queue, each
    once: what it has written followed by what is still pending is
    what was pending at the start, except for at most one message, the
    one it had taken when [NextWriter] failed. *)
Theorem writePump_conserves_queue st c script :
  ∃ lost,
    queue st c =
      payloads (writePump st c script).2 ++ lost ++
      queue (writePump st c script).1 c ∧
    (length lost ≤ 1)%nat ∧
    (lost ≠ [] -> SendReady false ∈ script).
Proof.
  revert st. induction script as [|k script IH]; intros st.
  { exists []. split; [done|]. split; [simpl; lia|done]. }
  simpl. destruct k as [ok|ok]; simpl.
  - destruct (chans st !! c) as [ch|] eqn:E.
    + destruct (buf ch) as [|m q] eqn:Eb.
      * destruct (closed ch); simpl.
        -- exists []. split; [done|]. split; [simpl; lia|done].
        -- destruct (IH st) as (lost & Hq & Hlen & Hl).
           destruct (writePump st c script) as [st2 acts2]. simpl in *.
           exists lost. split; [done|]. split; [done|].
           intros Hne. right. by apply Hl.
      * assert (Hqueue : queue st c = m :: queue (receive st c) c).
        { rewrite queue_receive. unfold queue. by rewrite E, Eb. }
        destruct ok; simpl.
        -- destruct (IH (receive st c)) as (lost & Hq & Hlen & Hl).
           destruct (writePump (receive st c) c script) as [st2 acts2].
           simpl in *. exists lost. rewrite Hqueue, Hq.
           split; [done|]. split; [done|]. intros Hne. right. by apply Hl.
        -- exists [m]. rewrite Hqueue. split; [done|]. split; [simpl; lia|].
           intros _. by left.
    + destruct (IH st) as (lost & Hq & Hlen & Hl).
      destruct (writePump st c script) as [st2 acts2]. simpl in *.
      exists lost. split; [done|]. split; [done|].
      intros Hne. right. by apply Hl.
  - destruct ok; simpl.
    + destruct (IH st) as (lost & Hq & Hlen & Hl).
      destruct (writePump st c script) as [st2 acts2]. simpl in *.
      exists lost.
      split; [done|]. split; [done|]. intros Hne. right. by apply Hl.
    + exists []. split; [done|]. split; [simpl; lia|done].
Qed.

(** X15. After an eviction: when the channel of a client is closed and
    holds [n] pending messages, [n + 1] wakes by the queue whose
    [NextWriter] succeeds make the writer hand the [n] messages to the
    connection in order, then write the close frame, then close the
    connection; and whatever wakes it, it writes a close frame only
    when the channel is closed and empty. *)
Theorem writePump_flushes_then_closes st c ch :
  chans st !! c = Some ch -> closed ch = true ->
  (writePump st c (replicate (S (length (buf ch))) (SendReady true))).2 =
    (ConnWrite ∘ TextMessage <$> buf ch) ++
    [ConnWrite CloseMessage; ConnClose] ∧
  ∀ script,
    ConnWrite CloseMessage ∈ (writePump st c script).2 ->
    ∃ ch', chans (writePump st c script).1 !! c = Some ch' ∧
           closed ch' = true ∧ buf ch' = [].
Proof.
  intros Hch Hcl. split.
  - revert st ch Hch Hcl.
    assert (H : ∀ q st ch, chans st !! c = Some ch -> closed ch = true ->
              buf ch = q ->
              (writePump st c (replicate (S (length q)) (SendReady true))).2 =
                (ConnWrite ∘ TextMessage <$> q) ++
                [ConnWrite CloseMessage; ConnClose]).
    { induction q as [|m q IH]; intros st ch Hch Hcl Hb.
      - simpl. by rewrite Hch, Hb, Hcl.
      - change (replicate (S (length (m :: q))) (SendReady true))
          with (SendReady true :: replicate (S (length q)) (SendReady true)).
        cbn [writePump writePump_turn]. rewrite Hch, Hb.
        specialize (IH (receive st c) (chan_pop ch)).
        destruct (writePump (receive st c) c
                    (replicate (S (length q)) (SendReady true)))
          as [st2 acts2]. simpl in *. f_equal. apply IH.
        + unfold receive. rewrite Hch. simpl. by rewrite lookup_insert_eq.
        + done.
        + by rewrite Hb. }
    intros st ch Hch Hcl. by apply (H (buf ch) st ch).
  - clear ch Hch Hcl. intros script. revert st.
    induction script as [|k script IH]; intros st; simpl.
    { by intros ?%elem_of_nil. }
    destruct k as [ok|ok]; simpl.
    + destruct (chans st !! c) as [ch|] eqn:E.
      * destruct (buf ch) as [|m q] eqn:Eb.
        -- destruct (closed ch) eqn:Ec; simpl.
           ++ intros _. by exists ch.
           ++ specialize (IH st).
              by destruct (writePump st c script).
        -- destruct ok; simpl.
           ++ specialize (IH (receive st c)).
              destruct (writePump (receive st c) c script). simpl in *.
              intros [Hin|Hin]%elem_of_cons; [done|]. by apply IH.
           ++ intros [Hin|Hin%elem_of_nil]%elem_of_cons; done.
      * specialize (IH st). by destruct (writePump st c script).
    + destruct ok; simpl.
      * specialize (IH st). destruct (writePump st c script). simpl in *.
        intros [Hin|Hin]%elem_of_cons; [done|]. by apply IH.
      * intros [Hin|Hin%elem_of_nil]%elem_of_cons; done.
Qed.

(** ** The content of a roster *)

Lemma string_app_nil s : "" +:+ s = s.
Proof. reflexivity. Qed.

Lemma string_app_cons a x s : String a x +:+ s = String a (x +:+ s).
Proof. reflexivity. Qed.

Lemma comma_free_app_comma x rest : comma_free (x +:+ "," +:+ rest) = false.
Proof.
  induction x as [|a x IH].
  - reflexivity.
  - rewrite string_app_cons. simpl. rewrite IH. apply andb_false_r.
Qed.

Lemma app_comma_inj x y rest rest' :
  comma_free x = true -> comma_free y = true ->
  x +:+ "," +:+ rest = y +:+ "," +:+ rest' -> x = y ∧ rest = rest'.
Proof.
  revert y. induction x as [|a x IH]; intros [|b y] Hx Hy;
    rewrite ?string_app_nil, ?string_app_cons, ?string_app_nil;
    intros Heq.
  - injection Heq as ->. done.
  - injection Heq as <- _. simpl in Hy. done.
  - injection Heq as -> _. simpl in Hx. done.
  - injection Heq as -> Heq. simpl in Hx, Hy.
    apply andb_true_iff in Hx as [_ Hx]. apply andb_true_iff in Hy as [_ Hy].
    destruct (IH y Hx Hy Heq) as [-> ->]. done.
Qed.

Lemma Join_cons_cons x y rest sep :
  Join (x :: y :: rest) sep = x +:+ sep +:+ Join (y :: rest) sep.
Proof. done. Qed.

Lemma Join_plain_nonempty u users :
  u ≠ "" -> Join (u :: users) "," ≠ "".
Proof.
  intros Hu. destruct users as [|v users]; [done|].
  rewrite Join_cons_cons. destruct u; [done|].
  by rewrite string_app_cons.
Qed.

(** X16. The content of a roster determines the list of usernames it
    was built from, as long as no username is empty or contains a
    comma: two such lists joined by commas to the same content are the
    same list. *)
Theorem roster_content_determines_users room users users' :
  Forall plain_username users -> Forall plain_username users' ->
  roster room users = roster room users' -> users = users'.
Proof.
  intros Hu Hu' [= Heq]. revert users' Hu' Heq.
  induction Hu as [|u users [Hne Hcf] Hu IH]; intros users' Hu' Heq.
  - destruct Hu' as [|u' users' [Hne' _] _]; [done|].
    symmetry in Heq. by apply Join_plain_nonempty in Heq.
  - destruct Hu' as [|u' users' [Hne' Hcf'] Hu'].
    { by apply Join_plain_nonempty in Heq. }
    destruct users as [|v users], users' as [|v' users'].
    + simpl in Heq. by subst.
    + rewrite Join_cons_cons in Heq. change (Join [u] ",") with u in Heq.
      subst u. by rewrite comma_free_app_comma in Hcf.
    + rewrite Join_cons_cons in Heq. change (Join [u'] ",") with u' in Heq.
      subst u'. by rewrite comma_free_app_comma in Hcf'.
    + rewrite !Join_cons_cons in Heq.
      destruct (app_comma_inj _ _ _ _ Hcf Hcf' Heq) as [-> Hrest].
      f_equal. by apply IH.
Qed.

End Further.

(** ** The further properties at concrete states *)

Lemma reachable_never_panics_witness :
  let st := state_after plain_runtime alice_evicted in
  reachable (rt := plain_runtime) st ∧
  (∀ msg, is_Some (handleBroadcast (rt := plain_runtime) st msg)) ∧
  (∀ c, is_Some (handleUnregister (rt := plain_runtime) st c)) ∧
  (∀ c, chans st !! c = None ->
        is_Some (handleRegister (rt := plain_runtime) (new_client c st) c)) ∧
  (∀ a r u, chans st !! {| addr := a; room := r; username := u |} = None ->
            is_Some (HandleWebSocket (rt := plain_runtime) st a r u)).
Proof.
  intros st.
  assert (Hreach : reachable (rt := plain_runtime) st)
    by apply state_after_reachable.
  clearbody st. split; [exact Hreach|].
  exact (reachable_never_panics plain_runtime_visits_all st Hreach).
Defined.

Lemma reachable_queues_bounded_witness :
  let st := state_after plain_runtime lobby_saturated in
  let ch := chan_of st alice in
  reachable (rt := plain_runtime) st ∧ chans st !! alice = Some ch ∧
  cap ch = sendBufferSize ∧ (length (buf ch) ≤ sendBufferSize)%nat.
Proof.
  intros st ch.
  assert (Hreach : reachable (rt := plain_runtime) st)
    by apply state_after_reachable.
  assert (Hch : chans st !! alice = Some ch) by (vm_compute; reflexivity).
  clearbody ch. clearbody st.
  split; [exact Hreach|]. split; [exact Hch|].
  exact (reachable_queues_bounded plain_runtime_visits_all st alice ch
           Hreach Hch).
Defined.

Lemma hub_events_only_append_witness :
  let st := state_after plain_runtime three_clients in
  let e := Unregister alice in
  let st' := run_from plain_runtime st [e] in
  let ch := chan_of st bob in
  reachable (rt := plain_runtime) st ∧ hub_event e ∧
  step (rt := plain_runtime) st e = Some st' ∧
  chans st !! bob = Some ch ∧
  ∃ ch', chans st' !! bob = Some ch' ∧
         cap ch' = cap ch ∧
         (∃ added, buf ch' = buf ch ++ added) ∧
         (closed ch = true -> ch' = ch).
Proof.
  intros st e st' ch.
  assert (Hreach : reachable (rt := plain_runtime) st)
    by apply state_after_reachable.
  assert (Hstep : step (rt := plain_runtime) st e = Some st')
    by (vm_compute; reflexivity).
  assert (Hch : chans st !! bob = Some ch) by (vm_compute; reflexivity).
  clearbody ch. clearbody st'. clearbody st.
  split; [exact Hreach|]. split; [exact I|]. split; [exact Hstep|].
  split; [exact Hch|].
  exact (hub_events_only_append plain_runtime_visits_all st e st' bob ch
           Hreach I Hstep Hch).
Defined.

Lemma departed_never_returns_witness :
  let st := state_after plain_runtime alice_evicted in
  let es := frames bob 2 ++ [Unregister alice; Receive alice] in
  let st' := run_from plain_runtime st es in
  reachable (rt := plain_runtime) st ∧ is_Some (chans st !! alice) ∧
  (alice ∉ clients st) ∧ run (rt := plain_runtime) st es = Some st' ∧
  (alice ∉ clients st') ∧ (∀ r, alice ∉ rooms st' !!! r) ∧
  ∃ n, queue st' alice = drop n (queue st alice).
Proof.
  intros st es st'.
  assert (Hreach : reachable (rt := plain_runtime) st)
    by apply state_after_reachable.
  assert (Halloc : is_Some (chans st !! alice))
    by (apply (bool_decide_unpack _); vm_compute; exact I).
  assert (Hout : alice ∉ clients st)
    by (apply (bool_decide_unpack _); vm_compute; exact I).
  assert (Hrun : run (rt := plain_runtime) st es = Some st')
    by (vm_compute; reflexivity).
  clearbody st'. clearbody st.
  split; [exact Hreach|]. split; [exact Halloc|]. split; [exact Hout|].
  split; [exact Hrun|].
  exact (departed_never_returns plain_runtime_visits_all st alice es st'
           Hreach Halloc Hout Hrun).
Defined.

Lemma unregister_is_final_witness :
  let st := state_after plain_runtime three_clients in
  let es1 := frames alice 2 in
  let es2 := frames alice 1 ++ [Receive alice] in
  let st' := run_from plain_runtime st (es1 ++ Unregister bob :: es2) in
  reachable (rt := plain_runtime) st ∧ is_Some (chans st !! bob) ∧
  run (rt := plain_runtime) st (es1 ++ Unregister bob :: es2) = Some st' ∧
  (bob ∉ clients st') ∧ ∀ r, bob ∉ rooms st' !!! r.
Proof.
  intros st es1 es2 st'.
  assert (Hreach : reachable (rt := plain_runtime) st)
    by apply state_after_reachable.
  assert (Halloc : is_Some (chans st !! bob))
    by (apply (bool_decide_unpack _); vm_compute; exact I).
  assert (Hrun : run (rt := plain_runtime) st (es1 ++ Unregister bob :: es2)
                 = Some st')
    by (vm_compute; reflexivity).
  clearbody st'. clearbody st.
  split; [exact Hreach|]. split; [exact Halloc|]. split; [exact Hrun|].
  exact (unregister_is_final plain_runtime_visits_all st bob es1 es2 st'
           Hreach Halloc Hrun).
Defined.

Lemma last_member_leaving_deletes_room_witness :
  let st := state_after plain_runtime three_clients in
  hub_inv st ∧ carol ∈ clients st ∧ rooms st !!! room carol = {[carol]} ∧
  ∃ st', handleUnregister (rt := plain_runtime) st carol = Some st' ∧
         rooms st' !! room carol = None ∧
         ∀ r, r ≠ room carol -> rooms st' !! r = rooms st !! r.
Proof.
  intros st.
  assert (Hinv : hub_inv st)
    by apply (state_after_hub_inv _ _ plain_runtime_visits_all).
  assert (Hc : carol ∈ clients st)
    by (apply (bool_decide_unpack _); vm_compute; exact I).
  assert (Hlast : rooms st !!! room carol = {[carol]})
    by (apply (bool_decide_unpack _); vm_compute; exact I).
  clearbody st.
  split; [exact Hinv|]. split; [exact Hc|]. split; [exact Hlast|].
  exact (last_member_leaving_deletes_room plain_runtime_visits_all st carol
           Hinv Hc Hlast).
Defined.

Lemma only_full_eviction_empties_a_room_witness :
  let st := state_after plain_runtime lobby_saturated in
  let e := Broadcast (chatMessage bob "hi") in
  let st' := run_from plain_runtime st [e] in
  reachable (rt := plain_runtime) st ∧ rooms_nonempty st ∧
  step (rt := plain_runtime) st e = Some st' ∧
  (rooms st !! "lobby" = None ∨
   ∃ c, c ∈ rooms st !!! "lobby" ∧ ¬ chan_full (chans st !! c)) ∧
  rooms_nonempty st'.
Proof.
  intros st e st'.
  assert (Hreach : reachable (rt := plain_runtime) st)
    by apply state_after_reachable.
  assert (Hne : rooms_nonempty st).
  { change (map_Forall (λ _ (s : gset Client), s ≠ ∅) (rooms st)).
    apply (bool_decide_unpack _). vm_compute. exact I. }
  assert (Hstep : step (rt := plain_runtime) st e = Some st')
    by (vm_compute; reflexivity).
  assert (Hbob : bob ∈ rooms st !!! "lobby" ∧ ¬ chan_full (chans st !! bob)).
  { split; apply (bool_decide_unpack _); vm_compute; exact I. }
  clearbody st'. clearbody st.
  split; [exact Hreach|]. split; [exact Hne|]. split; [exact Hstep|].
  split; [right; exists bob; exact Hbob|].
  exact (only_full_eviction_empties_a_room plain_runtime_visits_all
           st e st' Hreach Hne Hstep
           (or_intror (ex_intro _ bob Hbob))).
Defined.

Lemma route_never_creates_rooms_witness :
  let st := state_after plain_runtime three_clients in
  let msg := {| Type_ := "chat"; Content := "hi";
                RoomName := "attic"; Username := "dave" |} in
  hub_inv st ∧
  ∃ st', handleBroadcast (rt := plain_runtime) st msg = Some st' ∧
         dom (rooms st') = dom (rooms st) ∧
         clients st' ⊆ clients st ∧
         (∀ r, rooms st' !!! r ⊆ rooms st !!! r) ∧
         (rooms st !! RoomName msg = None ->
          clients st' = clients st ∧ rooms st' = rooms st ∧
          chans st' = chans st).
Proof.
  intros st msg.
  assert (Hinv : hub_inv st)
    by apply (state_after_hub_inv _ _ plain_runtime_visits_all).
  clearbody st. split; [exact Hinv|].
  exact (route_never_creates_rooms plain_runtime_visits_all st msg Hinv).
Defined.


Lemma unregister_notifies_members_witness :
  let st := state_after plain_runtime three_clients in
  hub_inv st ∧ bob ∈ clients st ∧
  ∃ st' l,
    handleUnregister (rt := plain_runtime) st bob = Some st' ∧
    routed st' =
      routed st ++ [leftMessage bob; roster (room bob) (username <$> l)] ∧
    ∀ jl jr,
      plain_json (leftMessage bob) = inl jl ->
      plain_json (roster (room bob) (username <$> l)) = inl jr ->
      ∀ c' ch,
        c' ∈ rooms st !!! room bob -> c' ≠ bob ->
        chans st !! c' = Some ch -> (length (buf ch) + 2 ≤ cap ch)%nat ->
        chans st' !! c' = Some (chan_push (chan_push ch jl) jr) ∧
        c' ∈ l ∧ c' ∈ clients st' ∧ c' ∈ rooms st' !!! room bob.
Proof.
  intros st.
  assert (Hinv : hub_inv st)
    by apply (state_after_hub_inv _ _ plain_runtime_visits_all).
  assert (Hbob : bob ∈ clients st)
    by (apply (bool_decide_unpack _); vm_compute; exact I).
  clearbody st.
  split; [exact Hinv|]. split; [exact Hbob|].
  exact (unregister_notifies_members plain_runtime_visits_all st bob
           Hinv Hbob).
Defined.

Lemma readPump_exit_leaves_hub_witness :
  let st := state_after plain_runtime three_clients in
  let pump := hub_events (readPump bob ((inl <$> ["hi"; "there"]) ++
                                        [inr (OtherError "i/o timeout")])) in
  let es := frames alice 1 ++ pump ++ frames alice 1 in
  let st' := run_from plain_runtime st es in
  reachable (rt := plain_runtime) st ∧ is_Some (chans st !! bob) ∧
  sublist pump es ∧ run (rt := plain_runtime) st es = Some st' ∧
  (bob ∉ clients st') ∧ ∀ r, bob ∉ rooms st' !!! r.
Proof.
  intros st pump es st'.
  assert (Hreach : reachable (rt := plain_runtime) st)
    by apply state_after_reachable.
  assert (Halloc : is_Some (chans st !! bob))
    by (apply (bool_decide_unpack _); vm_compute; exact I).
  assert (Hsub : sublist pump es).
  { apply sublist_inserts_l, sublist_inserts_r. reflexivity. }
  assert (Hrun : run (rt := plain_runtime) st es = Some st')
    by (vm_compute; reflexivity).
  clearbody st'. clearbody st.
  split; [exact Hreach|]. split; [exact Halloc|]. split; [exact Hsub|].
  split; [exact Hrun|].
  exact (readPump_exit_leaves_hub plain_runtime_visits_all st bob
           ["hi"; "there"] (OtherError "i/o timeout") [] es st'
           Hreach Halloc Hsub Hrun).
Defined.

Lemma writePump_keeps_reachable_witness :
  let st := state_after plain_runtime three_clients in
  let script := [SendReady true; TickerFired true; SendReady false] in
  reachable (rt := plain_runtime) st ∧
  reachable (rt := plain_runtime) (writePump st alice script).1.
Proof.
  intros st script.
  assert (Hreach : reachable (rt := plain_runtime) st)
    by apply state_after_reachable.
  clearbody st. split; [exact Hreach|].
  exact (writePump_keeps_reachable st alice script Hreach).
Defined.

Lemma writePump_flushes_then_closes_witness :
  let st := state_after plain_runtime alice_evicted in
  let ch := chan_of st alice in
  chans st !! alice = Some ch ∧ closed ch = true ∧
  (writePump st alice (replicate (S (length (buf ch))) (SendReady true))).2 =
    (ConnWrite ∘ TextMessage <$> buf ch) ++
    [ConnWrite CloseMessage; ConnClose] ∧
  ∀ script,
    ConnWrite CloseMessage ∈ (writePump st alice script).2 ->
    ∃ ch', chans (writePump st alice script).1 !! alice = Some ch' ∧
           closed ch' = true ∧ buf ch' = [].
Proof.
  intros st ch.
  assert (Hch : chans st !! alice = Some ch) by (vm_compute; reflexivity).
  assert (Hcl : closed ch = true) by (vm_compute; reflexivity).
  clearbody ch. clearbody st.
  split; [exact Hch|]. split; [exact Hcl|].
  exact (writePump_flushes_then_closes st alice ch Hch Hcl).
Defined.

Lemma roster_content_determines_users_witness :
  Forall plain_username ["alice"; "bob"] ∧
  roster "lobby" ["alice"; "bob"] = roster "lobby" ["alice"; "bob"] ∧
  ["alice"; "bob"] = ["alice"; "bob"].
Proof.
  assert (Hu : Forall plain_username ["alice"; "bob"]).
  { repeat constructor; discriminate. }
  split; [exact Hu|]. split; [reflexivity|].
  exact (roster_content_determines_users "lobby" ["alice"; "bob"]
           ["alice"; "bob"] Hu Hu eq_refl).
Defined.

(** A username with a comma makes two rosters coincide. *)
Example roster_comma_collision :
  roster "lobby" ["a,b"] = roster "lobby" ["a"; "b"].
Proof. reflexivity. Qed.
